(** * Transition oracle for UCCA passages (parser/oracle.py)

    A shallow embedding of [Oracle.get_action] together with the properties
    the specification states about it.

    Conventions of the embedding.
    - A Python [set] is a list holding its elements in iteration order,
      without repetition.  The order is incidental in Python (it comes from
      object hashes), so every statement below is made for an arbitrary
      order of [edges_remaining] and [nodes_remaining].
    - [core.Node] and [core.Edge] are cyclic (a node lists its edges, an
      edge points to its nodes).  What the oracle reads through an edge
      ([ID], [attrib]) is kept in [Node]; the edge lists of the node a
      state node was made from are kept in [OrigNode].
    - An edge is compared by object identity in Python; [eid] is that
      identity.
    - [state.stack] is a Python list whose last element is the top. *)

From Stdlib Require Import List String Ascii Bool Arith ZArith Lia Permutation.
Import ListNotations.

Local Open Scope list_scope.

(** ** Gold graph *)

Record Node := mkNode {
  ID : string;            (* node.ID *)
  implicit : bool         (* node.attrib.get("implicit") *)
}.

Record Edge := mkEdge {
  eid : nat;              (* object identity *)
  parent : Node;          (* edge.parent *)
  child : Node;           (* edge.child *)
  tag : string;           (* edge.tag *)
  remote : bool           (* edge.attrib.get("remote") *)
}.

Record OrigNode := mkOrigNode {
  node : Node;
  incoming : list Edge;   (* orig_node.incoming *)
  outgoing : list Edge    (* orig_node.outgoing *)
}.

Definition ROOT_ID : string := "1.1"%string.

(** ** Parser state, as far as the oracle reads it *)

Record StateNode := mkStateNode {
  node_id : string;       (* state node's node_id *)
  orig_node : OrigNode    (* state node's orig_node *)
}.

Record State := mkState {
  stack : list StateNode;   (* state.stack, top last *)
  buffer : list StateNode   (* state.buffer, front first *)
}.

(** ** Actions *)

Inductive Action :=
| SHIFT
| NODE (t : string) (n : Node)
| IMPLICIT (t : string) (n : Node)
| REDUCE
| SWAP (distance : option nat)
| FINISH
| LEFT_EDGE (t : string)
| RIGHT_EDGE (t : string)
| LEFT_REMOTE (t : string)
| RIGHT_REMOTE (t : string).

Inductive Prefix := RIGHT | LEFT.

(** [Action(prefix + ("-REMOTE" if edge.attrib.get("remote") else "-EDGE"), edge.tag)] *)
Definition binary_action (p : Prefix) (e : Edge) : Action :=
  match p, remote e with
  | RIGHT, true => RIGHT_REMOTE (tag e)
  | RIGHT, false => RIGHT_EDGE (tag e)
  | LEFT, true => LEFT_REMOTE (tag e)
  | LEFT, false => LEFT_EDGE (tag e)
  end.

(** ** Oracle *)

Record Oracle := mkOracle {
  nodes_remaining : list string;
  edges_remaining : list Edge
}.

(** What a call can raise: the explicit [Exception] of the last lines, with
    the state and the remaining sets its message is built from, and the
    [KeyError] of [set.remove]. *)
Inductive Raised :=
| NoActionPossible (st : State) (nodes : list string) (edges : list Edge)
| KeyError_node (k : string)
| KeyError_edge (e : Edge).

Inductive Outcome :=
| Returns (a : Action)
| Raises (r : Raised).

(** ** Set operations *)

Definition Node_eq_dec (x y : Node) : {x = y} + {x <> y}.
Proof. decide equality; [apply bool_dec | apply string_dec]. Defined.

Definition Edge_eq_dec (x y : Edge) : {x = y} + {x <> y}.
Proof.
  decide equality;
    [apply bool_dec | apply string_dec | apply Node_eq_dec
     | apply Node_eq_dec | apply Nat.eq_dec].
Defined.

Definition mem_edge (e : Edge) (s : list Edge) : bool :=
  if in_dec Edge_eq_dec e s then true else false.

Definition mem_id (k : string) (s : list string) : bool :=
  if in_dec string_dec k s then true else false.

(** [s.intersection(other)] *)
Definition intersection (s other : list Edge) : list Edge :=
  filter (fun e => mem_edge e other) s.

(** [s.remove(x)]: [None] stands for [KeyError]. *)
Fixpoint set_remove {A : Type} (eq_dec : forall x y : A, {x = y} + {x <> y})
    (x : A) (s : list A) : option (list A) :=
  match s with
  | [] => None
  | y :: s' =>
      if eq_dec x y then Some s'
      else match set_remove eq_dec x s' with
           | Some r => Some (y :: r)
           | None => None
           end
  end.

(** [related.issubset(ids)] *)
Definition issubset (related ids : list string) : bool :=
  forallb (fun k => mem_id k ids) related.

Definition is_empty {A : Type} (l : list A) : bool :=
  match l with [] => true | _ :: _ => false end.

(** ** [Oracle.get_action] *)

Section GetAction.

(** [Config().compound_swap] *)
Variable compound_swap : bool.

(** [set([edge.child.ID for edge in outgoing] + [edge.parent.ID for edge in incoming])] *)
Definition related_ids (incoming_ outgoing_ : list Edge) : list string :=
  map (fun e => ID (child e)) outgoing_ ++ map (fun e => ID (parent e)) incoming_.

(** [state.stack[:-swap_distance-2]] *)
Definition stack_below (stk : list StateNode) (swap_distance : nat) : list StateNode :=
  firstn (List.length stk - (swap_distance + 2)) stk.

(** The condition of the [while] loop. *)
Definition swap_cond (stk : list StateNode) (related : list string)
    (swap_distance : nat) : bool :=
  (swap_distance + 1 <? List.length stk)
  && (compound_swap || (swap_distance <? 1))
  && issubset related (map node_id (stack_below stk swap_distance)).

(** The [while] loop, started at [swap_distance]; [fuel] bounds the number
    of iterations.  The loop condition fails once [swap_distance + 1]
    reaches the length of the stack, so fuel equal to that length is never
    used up ([swap_loop_exit]). *)
Fixpoint swap_loop (fuel : nat) (stk : list StateNode) (related : list string)
    (swap_distance : nat) : nat :=
  match fuel with
  | 0 => swap_distance
  | S fuel' =>
      if swap_cond stk related swap_distance
      then swap_loop fuel' stk related (swap_distance + 1)
      else swap_distance
  end.

Definition swap_distance_of (stk : list StateNode) (related : list string) : nat :=
  swap_loop (List.length stk) stk related 0.

(** The conditions of the four generators. *)

(** [e.parent.ID == state.stack[-2].node_id] *)
Definition parent_is (s1 : StateNode) (e : Edge) : bool :=
  (ID (parent e) =? node_id s1)%string.

(** [e.child.ID == state.stack[-2].node_id] *)
Definition child_is (s1 : StateNode) (e : Edge) : bool :=
  (ID (child e) =? node_id s1)%string.

(** [e.parent.ID in self.nodes_remaining and not e.attrib.get("remote")] *)
Definition parent_to_create (nodes : list string) (e : Edge) : bool :=
  mem_id (ID (parent e)) nodes && negb (remote e).

(** [e.child.attrib.get("implicit")] *)
Definition child_implicit (e : Edge) : bool :=
  implicit (child e).

(** The two generators of the binary check, in the order of the [for]: the
    first edge of the first non-empty generator is taken. *)
Definition binary_candidate (incoming_ outgoing_ : list Edge) (s1 : StateNode)
    : option (Prefix * Edge) :=
  match find (parent_is s1) incoming_ with
  | Some e => Some (RIGHT, e)
  | None =>
      match find (child_is s1) outgoing_ with
      | Some e => Some (LEFT, e)
      | None => None
      end
  end.

Inductive Unary := U_NODE | U_IMPLICIT.

(** The two generators of the unary check, in the order of the [for]. *)
Definition unary_candidate (nodes : list string) (incoming_ outgoing_ : list Edge)
    : option (Unary * Edge) :=
  match find (parent_to_create nodes) incoming_ with
  | Some e => Some (U_NODE, e)
  | None =>
      match find child_implicit outgoing_ with
      | Some e => Some (U_IMPLICIT, e)
      | None => None
      end
  end.

(** The last two statements: raise when the buffer is empty, else SHIFT. *)
Definition no_rule (self : Oracle) (state : State) : Outcome * Oracle :=
  if is_empty (buffer state)
  then (Raises (NoActionPossible state (nodes_remaining self) (edges_remaining self)), self)
  else (Returns SHIFT, self).

(** Body of the binary [for]: remove the edge, return the action. *)
Definition discharge_binary (self : Oracle) (p : Prefix) (e : Edge) : Outcome * Oracle :=
  match set_remove Edge_eq_dec e (edges_remaining self) with
  | None => (Raises (KeyError_edge e), self)
  | Some edges' =>
      (Returns (binary_action p e), mkOracle (nodes_remaining self) edges')
  end.

(** [getattr(edge, attr)] *)
Definition unary_node (u : Unary) (e : Edge) : Node :=
  match u with U_NODE => parent e | U_IMPLICIT => child e end.

(** [action(edge.tag, node)] *)
Definition unary_action (u : Unary) (e : Edge) : Action :=
  match u with
  | U_NODE => NODE (tag e) (parent e)
  | U_IMPLICIT => IMPLICIT (tag e) (child e)
  end.

(** Body of the unary [for]: remove the edge, then the node's ID, return
    the action. *)
Definition discharge_unary (self : Oracle) (u : Unary) (e : Edge) : Outcome * Oracle :=
  match set_remove Edge_eq_dec e (edges_remaining self) with
  | None => (Raises (KeyError_edge e), self)
  | Some edges' =>
      match set_remove string_dec (ID (unary_node u e)) (nodes_remaining self) with
      | None =>
          (Raises (KeyError_node (ID (unary_node u e))),
           mkOracle (nodes_remaining self) edges')
      | Some nodes' => (Returns (unary_action u e), mkOracle nodes' edges')
      end
  end.

(** The unary check and what follows it. *)
Definition unary_check (self : Oracle) (state : State)
    (incoming_ outgoing_ : list Edge) : Outcome * Oracle :=
  match unary_candidate (nodes_remaining self) incoming_ outgoing_ with
  | Some (u, e) => discharge_unary self u e
  | None => no_rule self state
  end.

(** [self.edges_remaining.intersection(state.stack[-1].orig_node.incoming)] *)
Definition incoming_remaining (self : Oracle) (s0 : StateNode) : list Edge :=
  intersection (edges_remaining self) (incoming (orig_node s0)).

(** [self.edges_remaining.intersection(state.stack[-1].orig_node.outgoing)] *)
Definition outgoing_remaining (self : Oracle) (s0 : StateNode) : list Edge :=
  intersection (edges_remaining self) (outgoing (orig_node s0)).

(** [related] for the top of the stack [s0]. *)
Definition related_of (self : Oracle) (s0 : StateNode) : list string :=
  related_ids (incoming_remaining self s0) (outgoing_remaining self s0).

(** [state.buffer and state.buffer[0].node_id in related] *)
Definition buffer_front_related (state : State) (related : list string) : bool :=
  match buffer state with
  | [] => false
  | b0 :: _ => mem_id (node_id b0) related
  end.

Definition get_action (self : Oracle) (state : State) : Outcome * Oracle :=
  if is_empty (edges_remaining self) then (Returns FINISH, self)
  else
    match rev (stack state) with
    | [] => no_rule self state
    | s0 :: below =>
        let incoming_ := incoming_remaining self s0 in
        let outgoing_ := outgoing_remaining self s0 in
        if is_empty (incoming_ ++ outgoing_) then (Returns REDUCE, self)
        else
          let related := related_ids incoming_ outgoing_ in
          if buffer_front_related state related then (Returns SHIFT, self)
          else
            match below with
            | [] => unary_check self state incoming_ outgoing_
            | s1 :: _ =>
                match binary_candidate incoming_ outgoing_ s1 with
                | Some (p, e) => discharge_binary self p e
                | None =>
                    let swap_distance := swap_distance_of (stack state) related in
                    if negb (swap_distance =? 0)
                    then (Returns (SWAP (if compound_swap
                                         then Some swap_distance else None)), self)
                    else unary_check self state incoming_ outgoing_
                end
            end
    end.

End GetAction.

(** Top of the stack and the element below it: [stack[-1]], [stack[-2]]. *)
Definition stack_top (state : State) : option StateNode :=
  hd_error (rev (stack state)).

Definition stack_second (state : State) : option StateNode :=
  nth_error (rev (stack state)) 1.

(** The state of a call that got past the REDUCE check and the SHIFT
    preference, with [s0] on top of the stack. *)
Definition past_shift (self : Oracle) (st : State) (s0 : StateNode) : Prop :=
  edges_remaining self <> []
  /\ stack_top st = Some s0
  /\ incoming_remaining self s0 ++ outgoing_remaining self s0 <> []
  /\ buffer_front_related st (related_of self s0) = false.

(** ... and past the binary and swap checks, or not entitled to them. *)
Definition past_swap (compound_swap : bool) (self : Oracle) (st : State)
    (s0 : StateNode) : Prop :=
  past_shift self st s0
  /\ (stack_second st = None
      \/ exists s1, stack_second st = Some s1
           /\ binary_candidate (incoming_remaining self s0)
                               (outgoing_remaining self s0) s1 = None
           /\ swap_distance_of compound_swap (stack st) (related_of self s0) = 0).

(** The paths through [get_action], one constructor per [return] or
    [raise]. *)
Inductive Branch (compound_swap : bool) (self : Oracle) (st : State)
    : Outcome * Oracle -> Prop :=
| Br_finish :
    edges_remaining self = [] ->
    Branch compound_swap self st (Returns FINISH, self)
| Br_empty_stack :
    edges_remaining self <> [] ->
    stack st = [] ->
    Branch compound_swap self st (no_rule self st)
| Br_reduce s0 :
    edges_remaining self <> [] ->
    stack_top st = Some s0 ->
    incoming_remaining self s0 ++ outgoing_remaining self s0 = [] ->
    Branch compound_swap self st (Returns REDUCE, self)
| Br_shift s0 :
    edges_remaining self <> [] ->
    stack_top st = Some s0 ->
    incoming_remaining self s0 ++ outgoing_remaining self s0 <> [] ->
    buffer_front_related st (related_of self s0) = true ->
    Branch compound_swap self st (Returns SHIFT, self)
| Br_binary s0 s1 p e :
    past_shift self st s0 ->
    stack_second st = Some s1 ->
    binary_candidate (incoming_remaining self s0)
                     (outgoing_remaining self s0) s1 = Some (p, e) ->
    Branch compound_swap self st (discharge_binary self p e)
| Br_swap s0 s1 :
    past_shift self st s0 ->
    stack_second st = Some s1 ->
    binary_candidate (incoming_remaining self s0)
                     (outgoing_remaining self s0) s1 = None ->
    swap_distance_of compound_swap (stack st) (related_of self s0) <> 0 ->
    Branch compound_swap self st
      (Returns (SWAP (if compound_swap
                      then Some (swap_distance_of compound_swap (stack st)
                                   (related_of self s0))
                      else None)), self)
| Br_unary s0 u e :
    past_swap compound_swap self st s0 ->
    unary_candidate (nodes_remaining self) (incoming_remaining self s0)
                    (outgoing_remaining self s0) = Some (u, e) ->
    Branch compound_swap self st (discharge_unary self u e)
| Br_no_rule s0 :
    past_swap compound_swap self st s0 ->
    unary_candidate (nodes_remaining self) (incoming_remaining self s0)
                    (outgoing_remaining self s0) = None ->
    Branch compound_swap self st (no_rule self st).

(** Which actions discharge a gold edge. *)
Definition discharges (a : Action) : bool :=
  match a with
  | NODE _ _ | IMPLICIT _ _
  | LEFT_EDGE _ | RIGHT_EDGE _ | LEFT_REMOTE _ | RIGHT_REMOTE _ => true
  | SHIFT | REDUCE | SWAP _ | FINISH => false
  end.

(** What a call leaves of the two sets, by outcome. *)
Inductive Effect (self self' : Oracle) : Outcome -> Prop :=
| Eff_none out :
    (forall a, out = Returns a -> discharges a = false) ->
    (forall k, out <> Raises (KeyError_node k)) ->
    self' = self ->
    Effect self self' out
| Eff_binary p e :
    set_remove Edge_eq_dec e (edges_remaining self) = Some (edges_remaining self') ->
    nodes_remaining self' = nodes_remaining self ->
    Effect self self' (Returns (binary_action p e))
| Eff_unary u e :
    set_remove Edge_eq_dec e (edges_remaining self) = Some (edges_remaining self') ->
    set_remove string_dec (ID (unary_node u e)) (nodes_remaining self)
      = Some (nodes_remaining self') ->
    Effect self self' (Returns (unary_action u e))
| Eff_keyerror u e :
    set_remove Edge_eq_dec e (edges_remaining self) = Some (edges_remaining self') ->
    nodes_remaining self' = nodes_remaining self ->
    ~ In (ID (unary_node u e)) (nodes_remaining self) ->
    Effect self self' (Raises (KeyError_node (ID (unary_node u e)))).

(** The conditions under which each action is returned. *)
Inductive Returned (cs : bool) (self : Oracle) (st : State) : Action -> Prop :=
| Ret_finish :
    edges_remaining self = [] ->
    Returned cs self st FINISH
| Ret_reduce s0 :
    edges_remaining self <> [] ->
    stack_top st = Some s0 ->
    incoming_remaining self s0 ++ outgoing_remaining self s0 = [] ->
    Returned cs self st REDUCE
| Ret_shift_related s0 :
    edges_remaining self <> [] ->
    stack_top st = Some s0 ->
    incoming_remaining self s0 ++ outgoing_remaining self s0 <> [] ->
    buffer_front_related st (related_of self s0) = true ->
    Returned cs self st SHIFT
| Ret_shift_empty_stack :
    edges_remaining self <> [] ->
    stack st = [] ->
    buffer st <> [] ->
    Returned cs self st SHIFT
| Ret_shift_no_rule s0 :
    past_swap cs self st s0 ->
    unary_candidate (nodes_remaining self) (incoming_remaining self s0)
                    (outgoing_remaining self s0) = None ->
    buffer st <> [] ->
    Returned cs self st SHIFT
| Ret_binary s0 s1 p e :
    past_shift self st s0 ->
    stack_second st = Some s1 ->
    binary_candidate (incoming_remaining self s0)
                     (outgoing_remaining self s0) s1 = Some (p, e) ->
    Returned cs self st (binary_action p e)
| Ret_swap s0 s1 :
    past_shift self st s0 ->
    stack_second st = Some s1 ->
    binary_candidate (incoming_remaining self s0)
                     (outgoing_remaining self s0) s1 = None ->
    swap_distance_of cs (stack st) (related_of self s0) <> 0 ->
    Returned cs self st
      (SWAP (if cs then Some (swap_distance_of cs (stack st) (related_of self s0))
             else None))
| Ret_unary s0 u e :
    past_swap cs self st s0 ->
    unary_candidate (nodes_remaining self) (incoming_remaining self s0)
                    (outgoing_remaining self s0) = Some (u, e) ->
    In (ID (unary_node u e)) (nodes_remaining self) ->
    Returned cs self st (unary_action u e).

(** The graph model keeps a node's edge lists in step with the edges'
    endpoints: an edge is in [incoming] of its child and in [outgoing] of
    its parent, and nowhere else.  Stated for the edges in [edges]. *)
Definition incident_lists_agree (o : OrigNode) (edges : list Edge) : Prop :=
  forall e, In e edges ->
    (In e (incoming o) <-> child e = node o)
    /\ (In e (outgoing o) <-> parent e = node o).

(** ** [Oracle.__init__] *)

(** Modelled from the spec: the gold graph object (ucca.core is not among
    the sources), as far as [__init__] reads it: the nodes of the two
    layers, [passage.layer(layer1.LAYER_ID).all] and, with the terminals,
    [passage.nodes.values()]; iterating a node yields its outgoing edges. *)
Record Passage := mkPassage {
  layer0_all : list OrigNode;   (* terminals, in text order *)
  layer1_all : list OrigNode    (* root and the other non-terminals *)
}.

(** [passage.nodes.values()] *)
Definition passage_nodes (passage : Passage) : list OrigNode :=
  layer0_all passage ++ layer1_all passage.

Definition Oracle_init (passage : Passage) : Oracle :=
  mkOracle
    (remove string_dec ROOT_ID
       (nodup string_dec (map (fun n => ID (node n)) (layer1_all passage))))
    (nodup Edge_eq_dec (flat_map outgoing (passage_nodes passage))).

(** ** Parser state and driver

    The state class and the driver loop are not part of parser/oracle.py;
    they are modelled from the action table and the component list of the
    specification. *)

(** Modelled from the spec: an edge of the graph under construction (the
    state class is not among the sources), between two state nodes. *)
Record BuiltEdge := mkBuiltEdge {
  b_parent : StateNode;
  b_child : StateNode;
  b_tag : string;
  b_remote : bool
}.

(** Modelled from the spec: the parser state, that is the stack and buffer
    the oracle reads together with the graph under construction. *)
Record Parser := mkParser {
  state : State;
  graph : list BuiltEdge
}.

(** Modelled from the spec: the gold node an action's node argument stands
    for; in Python the action carries the node object itself. *)
Definition find_node (passage : Passage) (n : Node) : OrigNode :=
  match find (fun o => (ID (node o) =? ID n)%string) (passage_nodes passage) with
  | Some o => o
  | None => mkOrigNode n [] []
  end.

Definition new_state_node (passage : Passage) (n : Node) : StateNode :=
  mkStateNode (ID n) (find_node passage n).

Definition state_node_of (o : OrigNode) : StateNode :=
  mkStateNode (ID (node o)) o.

(** Modelled from the spec: the fresh parser state.  The buffer holds every
    terminal once, in order; the root, which [nodes_remaining] excludes
    because no action creates it, is the one node on the stack. *)
Definition fresh (passage : Passage) : Parser :=
  mkParser
    (mkState [new_state_node passage (mkNode ROOT_ID false)]
             (map state_node_of (layer0_all passage)))
    [].

(** [stack[-k:]] and [stack[:-k]] for a list with its top last. *)
Definition top_n {A : Type} (k : nat) (stk : list A) : list A :=
  skipn (List.length stk - k) stk.

Definition drop_top {A : Type} (k : nat) (stk : list A) : list A :=
  firstn (List.length stk - k) stk.

(** Modelled from the spec: where NODE puts the parent it creates.  The
    action table says "push new parent onto stack in place of (or above)
    top"; the two readings are kept apart.  In place of the top is the
    reading under which the projective scenario of the testable properties
    has no SWAP. *)
Inductive Placement := InPlaceOfTop | AboveTop.

(** Modelled from the spec: the effect column of the action table.
    - SHIFT pops the buffer front and pushes it onto the stack.
    - NODE creates the parent, attaches the top of the stack to it and
      pushes it onto the stack, in place of the top or above it as
      [place] says.
    - IMPLICIT creates the implicit child and attaches it to the top of the
      stack; the child is not shifted.
    - LEFT-EDGE/LEFT-REMOTE add the edge from the top to the node below it,
      RIGHT-EDGE/RIGHT-REMOTE the edge from the node below to the top; the
      stack keeps its shape.
    - REDUCE pops the stack.
    - SWAP moves the elements right below the top (one, or [distance] of
      them under compound swap) to the front of the buffer, in order; the
      deepest of them is the one at [stack[-swap_distance-2]] for the last
      [swap_distance] that passed the oracle's test.
    - FINISH changes nothing.
    An action whose precondition fails leaves the state as it is. *)
Definition transition (place : Placement) (passage : Passage) (ps : Parser)
    (a : Action) : Parser :=
  let stk := stack (state ps) in
  let buf := buffer (state ps) in
  match a with
  | SHIFT =>
      match buf with
      | b0 :: rest => mkParser (mkState (stk ++ [b0]) rest) (graph ps)
      | [] => ps
      end
  | NODE t n =>
      match rev stk with
      | s0 :: _ =>
          let new := new_state_node passage n in
          let kept := match place with
                      | InPlaceOfTop => removelast stk
                      | AboveTop => stk
                      end in
          mkParser (mkState (kept ++ [new]) buf)
                   (mkBuiltEdge new s0 t false :: graph ps)
      | [] => ps
      end
  | IMPLICIT t n =>
      match rev stk with
      | s0 :: _ =>
          let new := new_state_node passage n in
          mkParser (state ps) (mkBuiltEdge s0 new t false :: graph ps)
      | [] => ps
      end
  | REDUCE => mkParser (mkState (removelast stk) buf) (graph ps)
  | SWAP distance =>
      let d := match distance with Some d => d | None => 1 end in
      match rev stk with
      | s0 :: _ =>
          let below := drop_top 1 stk in
          mkParser (mkState (drop_top d below ++ [s0]) (top_n d below ++ buf))
                   (graph ps)
      | [] => ps
      end
  | FINISH => ps
  | LEFT_EDGE t | LEFT_REMOTE t =>
      match rev stk with
      | s0 :: s1 :: _ =>
          mkParser (state ps)
                   (mkBuiltEdge s0 s1 t
                      (match a with LEFT_REMOTE _ => true | _ => false end)
                    :: graph ps)
      | _ => ps
      end
  | RIGHT_EDGE t | RIGHT_REMOTE t =>
      match rev stk with
      | s0 :: s1 :: _ =>
          mkParser (state ps)
                   (mkBuiltEdge s1 s0 t
                      (match a with RIGHT_REMOTE _ => true | _ => false end)
                    :: graph ps)
      | _ => ps
      end
  end.

Inductive RunResult :=
| Finished (actions : list Action) (final : Parser)
| Failed (actions : list Action) (r : Raised)
| OutOfFuel.

(** Modelled from the spec: the driver calls the oracle and applies the
    action it returns until FINISH; [fuel] bounds the number of calls. *)
Fixpoint run (compound_swap : bool) (place : Placement) (passage : Passage)
    (fuel : nat) (self : Oracle) (ps : Parser) : RunResult :=
  match fuel with
  | 0 => OutOfFuel
  | S fuel' =>
      match get_action compound_swap self (state ps) with
      | (Raises r, _) => Failed [] r
      | (Returns FINISH, _) => Finished [FINISH] ps
      | (Returns a, self') =>
          match run compound_swap place passage fuel' self'
                  (transition place passage ps a) with
          | Finished actions final => Finished (a :: actions) final
          | Failed actions r => Failed (a :: actions) r
          | OutOfFuel => OutOfFuel
          end
      end
  end.

(** An edge as a relation between node IDs, for comparing the two graphs. *)
Definition gold_key (e : Edge) : string * string * string * bool :=
  (ID (parent e), ID (child e), tag e, remote e).

Definition built_key (b : BuiltEdge) : string * string * string * bool :=
  (node_id (b_parent b), node_id (b_child b), b_tag b, b_remote b).

(** Modelled from the spec: the driver stopped after [n] calls, or at the
    first call that raises. *)
Fixpoint advance (compound_swap : bool) (place : Placement) (passage : Passage)
    (n : nat) (self : Oracle) (ps : Parser) : Oracle * Parser :=
  match n with
  | 0 => (self, ps)
  | S n' =>
      match get_action compound_swap self (state ps) with
      | (Returns a, self') =>
          advance compound_swap place passage n' self' (transition place passage ps a)
      | (Raises _, _) => (self, ps)
      end
  end.

(** IDs of the nodes the actions of a run create. *)
Fixpoint created_ids (actions : list Action) : list string :=
  match actions with
  | [] => []
  | NODE _ n :: rest | IMPLICIT _ n :: rest => ID n :: created_ids rest
  | _ :: rest => created_ids rest
  end.

(** The graph model's invariant for a whole passage: the edges in a node's
    [incoming] have it as child, those in its [outgoing] as parent. *)
Definition passage_wf (passage : Passage) : Prop :=
  Forall (fun o => Forall (fun e => child e = node o) (incoming o)
                   /\ Forall (fun e => parent e = node o) (outgoing o))
         (passage_nodes passage).

(** No remote edge among [edges] points to an implicit node. *)
Definition no_remote_implicit (edges : list Edge) : Prop :=
  forall e, In e edges -> implicit (child e) = true -> remote e = false.

(** A state node stands for the gold node whose ID it carries. *)
Definition node_ok (s : StateNode) : Prop :=
  (forall e, In e (incoming (orig_node s)) -> ID (child e) = node_id s)
  /\ (forall e, In e (outgoing (orig_node s)) -> ID (parent e) = node_id s).

Definition state_ok (st : State) : Prop :=
  Forall node_ok (stack st ++ buffer st).

(** The gold edge set of a passage, as [Oracle.__init__] collects it. *)
Definition gold_edges (passage : Passage) : list Edge :=
  edges_remaining (Oracle_init passage).

(** The conditions under which a call raises. *)
Inductive RaisedBy (cs : bool) (self : Oracle) (st : State) : Raised -> Prop :=
| Rai_empty_stack :
    edges_remaining self <> [] ->
    stack st = [] ->
    buffer st = [] ->
    RaisedBy cs self st
      (NoActionPossible st (nodes_remaining self) (edges_remaining self))
| Rai_no_rule s0 :
    past_swap cs self st s0 ->
    unary_candidate (nodes_remaining self) (incoming_remaining self s0)
                    (outgoing_remaining self s0) = None ->
    buffer st = [] ->
    RaisedBy cs self st
      (NoActionPossible st (nodes_remaining self) (edges_remaining self))
| Rai_implicit s0 e :
    past_swap cs self st s0 ->
    unary_candidate (nodes_remaining self) (incoming_remaining self s0)
                    (outgoing_remaining self s0) = Some (U_IMPLICIT, e) ->
    ~ In (ID (child e)) (nodes_remaining self) ->
    RaisedBy cs self st (KeyError_node (ID (child e))).








(** ** Sample gold graphs *)
Module Sample.

(** A node record with the edge lists the graph model keeps for it. *)
Definition orig_of (edges : list Edge) (n : Node) : OrigNode :=
  mkOrigNode n
    (filter (fun e => if Node_eq_dec (child e) n then true else false) edges)
    (filter (fun e => if Node_eq_dec (parent e) n then true else false) edges).

Definition passage_of (edges : list Edge) (layer0 layer1 : list Node) : Passage :=
  mkPassage (map (orig_of edges) layer0) (map (orig_of edges) layer1).

Definition n_root := mkNode "1.1" false.
Definition n_scene := mkNode "1.2" false.
Definition n_impl := mkNode "1.3" true.
Definition n_unit := mkNode "1.4" false.
Definition n_link1 := mkNode "1.5" false.
Definition n_link2 := mkNode "1.6" false.
Definition n_t1 := mkNode "0.1" false.
Definition n_t2 := mkNode "0.2" false.

(** Root [1.1] with a scene [1.2] over the terminal [0.1]; the scene has an
    implicit participant [1.3]. *)
Definition e_root_scene := mkEdge 1 n_root n_scene "H" false.
Definition e_scene_t1 := mkEdge 2 n_scene n_t1 "Terminal" false.
Definition e_scene_impl := mkEdge 3 n_scene n_impl "A" false.

Definition one_scene_edges := [e_root_scene; e_scene_t1; e_scene_impl].
Definition one_scene : Passage :=
  passage_of one_scene_edges [n_t1] [n_root; n_scene; n_impl].

(** The same, with a second scene [1.4] over the terminal [0.2] that shares
    the implicit participant through a remote edge. *)
Definition e_root_unit := mkEdge 4 n_root n_unit "H" false.
Definition e_unit_t2 := mkEdge 5 n_unit n_t2 "Terminal" false.
Definition e_unit_impl := mkEdge 6 n_unit n_impl "A" true.

Definition shared_implicit_edges :=
  [e_root_scene; e_scene_t1; e_scene_impl; e_root_unit; e_unit_t2; e_unit_impl].
Definition shared_implicit : Passage :=
  passage_of shared_implicit_edges [n_t1; n_t2] [n_root; n_scene; n_impl; n_unit].

(** The same two scenes, the remote edge now on the first one. *)
Definition e_scene_impl_remote := mkEdge 3 n_scene n_impl "A" true.
Definition e_unit_impl_primary := mkEdge 6 n_unit n_impl "A" false.

Definition remote_first_edges :=
  [e_root_scene; e_scene_t1; e_scene_impl_remote;
   e_root_unit; e_unit_t2; e_unit_impl_primary].
Definition remote_first : Passage :=
  passage_of remote_first_edges [n_t1; n_t2] [n_root; n_scene; n_impl; n_unit].


(** Three terminals without crossing: the first under the root, the other
    two under one unit [1.2] under the root. *)
Definition n_t3 := mkNode "0.3" false.
Definition e_root_t1 := mkEdge 10 n_root n_t1 "F" false.
Definition e_scene_t2 := mkEdge 11 n_scene n_t2 "Terminal" false.
Definition e_scene_t3 := mkEdge 12 n_scene n_t3 "Terminal" false.
Definition projective_edges := [e_root_t1; e_root_scene; e_scene_t2; e_scene_t3].
Definition projective : Passage :=
  passage_of projective_edges [n_t1; n_t2; n_t3] [n_root; n_scene].

(** The two scenes of [shared_implicit], the second with an implicit
    participant [1.7] of its own besides the shared one. *)
Definition n_impl2 := mkNode "1.7" true.
Definition e_unit_impl2 := mkEdge 9 n_unit n_impl2 "A" false.
Definition two_implicit_edges := shared_implicit_edges ++ [e_unit_impl2].
Definition two_implicit : Passage :=
  passage_of two_implicit_edges [n_t1; n_t2]
    [n_root; n_scene; n_impl; n_unit; n_impl2].

(** A scene that two linkage nodes point to, after its edge from the root
    has been discharged. *)
Definition e_link1_scene := mkEdge 7 n_link1 n_scene "LA" false.
Definition e_link2_scene := mkEdge 8 n_link2 n_scene "LR" false.
Definition linked_edges := [e_root_scene; e_link1_scene; e_link2_scene].
Definition linked_state : State :=
  mkState [state_node_of (orig_of linked_edges n_root);
           state_node_of (orig_of linked_edges n_scene)] [].
Definition linked_oracle : Oracle :=
  mkOracle ["1.5"; "1.6"]%string [e_link1_scene; e_link2_scene].

Definition linked_after : Oracle :=
  mkOracle ["1.6"]%string [e_link2_scene].

(** The same state with the edge from the root still to discharge and one
    linkage edge left. *)
Definition rooted_oracle : Oracle :=
  mkOracle ["1.5"]%string [e_root_scene; e_link1_scene].

(** States of a run on [one_scene]. *)
Definition s_root := state_node_of (orig_of one_scene_edges n_root).
Definition s_scene := state_node_of (orig_of one_scene_edges n_scene).
Definition s_t1 := state_node_of (orig_of one_scene_edges n_t1).

(** The terminal on top with its edge discharged. *)
Definition done_terminal_state : State := mkState [s_root; s_t1] [].
(** The scene above the terminal, the root below both. *)
Definition buried_root_state : State := mkState [s_root; s_t1; s_scene] [].
(** The root on the stack, its scene at the front of the buffer. *)
Definition scene_ahead_state : State := mkState [s_root] [s_scene].
(** Nothing on the stack yet. *)
Definition empty_stack_state : State := mkState [] [s_t1].
Definition root_edge_left : Oracle := mkOracle [] [e_root_scene].

(** The state of the third call on [remote_first] when a created parent is
    pushed above the top: the scene on top, its terminal and the root
    below, the second terminal in the buffer. *)
Definition remote_call_oracle : Oracle :=
  mkOracle ["1.3"; "1.4"]%string
    [e_root_scene; e_root_unit; e_scene_impl_remote; e_unit_t2; e_unit_impl_primary].
Definition remote_call_state : State :=
  mkState (map (fun n => state_node_of (orig_of remote_first_edges n))
               [n_root; n_t1; n_scene])
          [state_node_of (orig_of remote_first_edges n_t2)].
Definition remote_call_after : Oracle :=
  mkOracle ["1.4"]%string
    [e_root_scene; e_root_unit; e_unit_t2; e_unit_impl_primary].

(** The state of the eleventh call on [shared_implicit] when a created
    parent is pushed above the top: the second unit on top, its terminal
    and the root below, the buffer empty; the implicit node has been
    created by the first scene. *)
Definition second_parent_oracle : Oracle :=
  mkOracle [] [e_root_unit; e_unit_impl].
Definition second_parent_state : State :=
  mkState (map (fun n => state_node_of (orig_of shared_implicit_edges n))
               [n_root; n_t2; n_unit])
          [].

(** The scene right above the root, its terminal still in the buffer,
    with all three edges of [one_scene] left. *)
Definition terminal_ahead_state : State := mkState [s_root; s_scene] [s_t1].
Definition scene_edges_left : Oracle :=
  mkOracle ["1.3"]%string [e_root_scene; e_scene_t1; e_scene_impl].

(** The scene on top, two discharged terminals between it and the root. *)
Definition deep_root_state : State :=
  mkState [s_root; s_t1; state_node_of (orig_of one_scene_edges n_t2); s_scene] [].

(** The state of the fourth call on [remote_first] when a created parent
    takes the place of the top. *)
Definition remote_call_oracle_in_place : Oracle :=
  mkOracle ["1.3"; "1.4"]%string
    [e_root_unit; e_scene_impl_remote; e_unit_t2; e_unit_impl_primary].
Definition remote_call_state_in_place : State :=
  mkState (map (fun n => state_node_of (orig_of remote_first_edges n))
               [n_root; n_scene])
          [state_node_of (orig_of remote_first_edges n_t2)].

(** The state of the ninth call on [shared_implicit] when a created parent
    takes the place of the top. *)
Definition second_parent_oracle_in_place : Oracle := mkOracle [] [e_unit_impl].
Definition second_parent_state_in_place : State :=
  mkState (map (fun n => state_node_of (orig_of shared_implicit_edges n))
               [n_root; n_unit])
          [].

(** The second unit of [two_implicit] on top, its two edges to implicit
    nodes left, in the two iteration orders; the shared implicit node has
    been created. *)
Definition two_implicit_oracle : Oracle :=
  mkOracle ["1.7"]%string [e_unit_impl; e_unit_impl2].
Definition two_implicit_oracle' : Oracle :=
  mkOracle ["1.7"]%string [e_unit_impl2; e_unit_impl].
Definition two_implicit_state : State :=
  mkState (map (fun n => state_node_of (orig_of two_implicit_edges n))
               [n_root; n_unit])
          [].


Definition rooted_after : Oracle :=
  mkOracle ["1.5"]%string [e_link1_scene].
Definition no_edges_left : Oracle := mkOracle [] [].

(** States reached from the fresh state of the passages above. *)
Definition at_call (place : Placement) (passage : Passage) (n : nat)
    : Oracle * Parser :=
  advance false place passage n (Oracle_init passage) (fresh passage).

End Sample.

(** ** Calls in sequence *)

(** The four binary edge actions. *)
Definition is_binary (a : Action) : bool :=
  match a with
  | LEFT_EDGE _ | RIGHT_EDGE _ | LEFT_REMOTE _ | RIGHT_REMOTE _ => true
  | _ => false
  end.

(** Successive calls of [get_action] on one oracle object, the [i]-th with
    the parser state [states[i]]: the sets a call leaves are the sets the
    next call starts from.  The sequence ends at the first call that
    raises; the result is the actions returned, the error if any, and the
    oracle as the last call left it. *)
Fixpoint get_actions (compound_swap : bool) (self : Oracle) (states : list State)
    : list Action * option Raised * Oracle :=
  match states with
  | [] => ([], None, self)
  | st :: rest =>
      match get_action compound_swap self st with
      | (Returns a, self') =>
          let '(actions, err, final) := get_actions compound_swap self' rest in
          (a :: actions, err, final)
      | (Raises r, self') => ([], Some r, self')
      end
  end.

(** * Text utilities (ucca/visualization.py, ucca/textutil.py, ucca/convert.py) *)

(** ** [tex_escape] *)

(** [TEX_ESCAPE_TABLE].  Every key is a single ASCII character, so a text
    is read as the bytes of its UTF-8 form: the bytes of another character
    match no key. *)
Definition TEX_ESCAPE_TABLE : list (ascii * string) :=
  [ ("&"%char, "\&"%string);
    ("%"%char, "\%"%string);
    ("$"%char, "\$"%string);
    ("#"%char, "\#"%string);
    ("_"%char, "\_"%string);
    ("{"%char, "\{"%string);
    ("}"%char, "\}"%string);
    ("~"%char, "\textasciitilde{}"%string);
    ("^"%char, "\^{}"%string);
    ("\"%char, "\textbackslash{}"%string);
    ("<"%char, "\textless "%string);
    (">"%char, "\textgreater "%string) ].

(** [TEX_ESCAPE_TABLE[key]], [None] when the key is missing. *)
Fixpoint table_get (table : list (ascii * string)) (key : ascii) : option string :=
  match table with
  | [] => None
  | (k, v) :: rest => if Ascii.eqb key k then Some v else table_get rest key
  end.

(** What [TEX_ESCAPE_PATTERN.sub] puts for one character: the pattern is
    the alternation of the keys, so a key is replaced by its entry and any
    other character is copied. *)
Definition escape_char (c : ascii) : string :=
  match table_get TEX_ESCAPE_TABLE c with
  | Some v => v
  | None => String c EmptyString
  end.

Fixpoint tex_escape (text : string) : string :=
  match text with
  | EmptyString => EmptyString
  | String c rest => (escape_char c ++ tex_escape rest)%string
  end.

(** The characters [tex_escape] rewrites. *)
Definition is_tex_special (c : ascii) : bool :=
  match table_get TEX_ESCAPE_TABLE c with Some _ => true | None => false end.

Fixpoint has_tex_special (text : string) : bool :=
  match text with
  | EmptyString => false
  | String c rest => is_tex_special c || has_tex_special rest
  end.

(** ** [break2paragraphs] *)

(** The attributes of a layer-0 terminal that [break2paragraphs] reads. *)
Record Terminal := mkTerminal {
  position : Z;
  para_pos : Z;
  paragraph : Z
}.

(** [itertools.groupby(l, key)]: the maximal runs of consecutive elements
    with equal keys, in order. *)
Fixpoint groupby {A : Type} (key : A -> Z) (l : list A) : list (list A) :=
  match l with
  | [] => []
  | x :: rest =>
      match groupby key rest with
      | (y :: g) :: gs =>
          if (key x =? key y)%Z then (x :: y :: g) :: gs
          else [x] :: (y :: g) :: gs
      | _ => [[x]]
      end
  end.

(** Every group is a non-empty run with one key, and the group after it
    starts with a different key. *)
Fixpoint runs {A : Type} (key : A -> Z) (groups : list (list A)) : Prop :=
  match groups with
  | [] => True
  | g :: gs =>
      g <> []
      /\ (forall x y, In x g -> In y g -> key x = key y)
      /\ match gs with
         | [] => True
         | g' :: _ => forall x y, In x g -> In y g' -> key x <> key y
         end
      /\ runs key gs
  end.

Inductive Paragraphs :=
| Groups (groups : list (list Terminal))   (* return_terminals=True *)
| Ends (ends : list Z)                     (* return_terminals=False *)
| IndexError.                              (* terminals[-1] of an empty list *)

(** [[t.position - 1 for t in terminals if t.position > 1 and t.para_pos == 1]] *)
Definition paragraph_starts (terminals : list Terminal) : list Z :=
  map (fun t => (position t - 1)%Z)
      (filter (fun t => (1 <? position t)%Z && (para_pos t =? 1)%Z) terminals).

(** [break2paragraphs(passage, return_terminals)], the passage given by
    [extract_terminals(passage)]. *)
Definition break2paragraphs (terminals : list Terminal) (return_terminals : bool)
    : Paragraphs :=
  if return_terminals then Groups (groupby paragraph terminals)
  else
    match rev terminals with
    | [] => IndexError
    | last_terminal :: _ =>
        Ends (map (fun t => (position t - 1)%Z)
                  (filter (fun t => (1 <? position t)%Z && (para_pos t =? 1)%Z)
                          terminals)
              ++ [position last_terminal])
    end.

(** A condition on the terminals given: their positions are [start],
    [start + 1], ... in order, and [para_pos] is 1 exactly on the first
    terminal of each run of equal paragraph numbers; [prev] is the
    paragraph of the terminal before the list, if any. *)
Fixpoint layer0_numbered (start : Z) (prev : option Z) (terminals : list Terminal)
    : Prop :=
  match terminals with
  | [] => True
  | t :: rest =>
      position t = start
      /\ (para_pos t = 1%Z <-> prev <> Some (paragraph t))
      /\ layer0_numbered (start + 1) (Some (paragraph t)) rest
  end.

(** The position of the closing terminal of each group. *)
Definition closing_positions (groups : list (list Terminal)) : list Z :=
  flat_map (fun g => match rev g with [] => [] | t :: _ => [position t] end) groups.

(** ** [SiteCfg.TagConversion] and [SiteCfg.EdgeConversion] *)

(** The members of [layer1.EdgeTags] that the two tables name.  Their
    values are set in another module, so the tables are written for any
    values of any type [tag]. *)
Module EdgeTags.
Record t (tag : Type) := mk {
  ParallelScene : tag;
  Function : tag;
  Participant : tag;
  Process : tag;
  State : tag;
  Adverbial : tag;
  Center : tag;
  Elaborator : tag;
  Linker : tag;
  Ground : tag;
  Connector : tag;
  Relator : tag
}.
End EdgeTags.

Arguments EdgeTags.ParallelScene {tag} _.
Arguments EdgeTags.Function {tag} _.
Arguments EdgeTags.Participant {tag} _.
Arguments EdgeTags.Process {tag} _.
Arguments EdgeTags.State {tag} _.
Arguments EdgeTags.Adverbial {tag} _.
Arguments EdgeTags.Center {tag} _.
Arguments EdgeTags.Elaborator {tag} _.
Arguments EdgeTags.Linker {tag} _.
Arguments EdgeTags.Ground {tag} _.
Arguments EdgeTags.Connector {tag} _.
Arguments EdgeTags.Relator {tag} _.

(** The items of the dict literal [TagConversion], in the order written. *)
Definition TagConversion {tag : Type} (layer1 : EdgeTags.t tag) : list (string * tag) :=
  [ ("Linked U", EdgeTags.ParallelScene layer1);
    ("Parallel Scene", EdgeTags.ParallelScene layer1);
    ("Function", EdgeTags.Function layer1);
    ("Participant", EdgeTags.Participant layer1);
    ("Process", EdgeTags.Process layer1);
    ("State", EdgeTags.State layer1);
    ("aDverbial", EdgeTags.Adverbial layer1);
    ("Center", EdgeTags.Center layer1);
    ("Elaborator", EdgeTags.Elaborator layer1);
    ("Linker", EdgeTags.Linker layer1);
    ("Ground", EdgeTags.Ground layer1);
    ("Connector", EdgeTags.Connector layer1);
    ("Role Marker", EdgeTags.Relator layer1);
    ("Relator", EdgeTags.Relator layer1) ]%string.

(** The items of the dict literal [EdgeConversion], in the order written. *)
Definition EdgeConversion {tag : Type} (layer1 : EdgeTags.t tag) : list (tag * string) :=
  [ (EdgeTags.ParallelScene layer1, "Parallel Scene");
    (EdgeTags.Function layer1, "Function");
    (EdgeTags.Participant layer1, "Participant");
    (EdgeTags.Process layer1, "Process");
    (EdgeTags.State layer1, "State");
    (EdgeTags.Adverbial layer1, "aDverbial");
    (EdgeTags.Center layer1, "Center");
    (EdgeTags.Elaborator layer1, "Elaborator");
    (EdgeTags.Linker layer1, "Linker");
    (EdgeTags.Ground layer1, "Ground");
    (EdgeTags.Connector layer1, "Connector");
    (EdgeTags.Relator layer1, "Relator") ]%string.

(** [d[key]] for the dict built from the items of a literal, [None] for
    [KeyError]: of two items with equal keys the later one gives the
    value. *)
Fixpoint dict_get {K V : Type} (eqb : K -> K -> bool) (d : list (K * V)) (key : K)
    : option V :=
  match d with
  | [] => None
  | (k, v) :: rest =>
      match dict_get eqb rest key with
      | Some later => Some later
      | None => if eqb key k then Some v else None
      end
  end.

(** ** Sample terminals *)
Module TextSample.

(** Three terminals in two paragraphs. *)
Definition two_paragraphs : list Terminal :=
  [mkTerminal 1 1 1; mkTerminal 2 2 1; mkTerminal 3 1 2].

(** Edge tags given as twelve different one-letter strings. *)
Definition letter_tags : EdgeTags.t string :=
  (EdgeTags.mk string "H" "F" "A" "P" "S" "D" "C" "E" "L" "G" "N" "R")%string.

End TextSample.

(** * Properties *)

(** ** Sets as lists *)

Lemma mem_edge_In (e : Edge) (s : list Edge) : mem_edge e s = true <-> In e s.
Proof.
  unfold mem_edge. destruct (in_dec Edge_eq_dec e s); split; intros; try easy.
Qed.

Lemma mem_id_In (k : string) (s : list string) : mem_id k s = true <-> In k s.
Proof.
  unfold mem_id. destruct (in_dec string_dec k s); split; intros; try easy.
Qed.


Lemma intersection_In (s other : list Edge) (e : Edge) :
  In e (intersection s other) <-> In e s /\ In e other.
Proof.
  unfold intersection. rewrite filter_In, mem_edge_In. tauto.
Qed.

Lemma is_empty_nil {A : Type} (l : list A) : is_empty l = true <-> l = [].
Proof. destruct l; simpl; split; intros; congruence. Qed.

Lemma issubset_incl (related ids : list string) :
  issubset related ids = true <-> incl related ids.
Proof.
  unfold issubset, incl. rewrite forallb_forall.
  split; intros H k Hk; [apply mem_id_In | apply mem_id_In]; auto.
Qed.

Section SetRemove.

Context {A : Type} (eq_dec : forall x y : A, {x = y} + {x <> y}).

Lemma set_remove_perm (x : A) (s r : list A) :
  set_remove eq_dec x s = Some r -> Permutation s (x :: r).
Proof.
  revert r. induction s as [|y s IH]; simpl; intros r H; [discriminate|].
  destruct (eq_dec x y) as [->|Hne].
  - injection H as <-. reflexivity.
  - destruct (set_remove eq_dec x s) as [r'|]; [|discriminate].
    injection H as <-. rewrite (IH r' eq_refl). apply perm_swap.
Qed.

Lemma set_remove_In (x : A) (s : list A) :
  In x s -> exists r, set_remove eq_dec x s = Some r.
Proof.
  induction s as [|y s IH]; simpl; intros H; [contradiction|].
  destruct (eq_dec x y) as [->|Hne]; [eauto|].
  destruct H as [->|H]; [congruence|].
  destruct (IH H) as [r ->]. eauto.
Qed.

Lemma set_remove_None (x : A) (s : list A) :
  set_remove eq_dec x s = None <-> ~ In x s.
Proof.
  split.
  - intros H Hin. destruct (set_remove_In x s Hin) as [r Hr]. congruence.
  - intros H. destruct (set_remove eq_dec x s) as [r|] eqn:E; [|reflexivity].
    exfalso. apply H. apply (Permutation_in x (Permutation_sym (set_remove_perm _ _ _ E))).
    now left.
Qed.

Lemma set_remove_incl (x : A) (s r : list A) :
  set_remove eq_dec x s = Some r -> incl r s.
Proof.
  intros H y Hy. apply (Permutation_in y (Permutation_sym (set_remove_perm _ _ _ H))).
  now right.
Qed.

Lemma set_remove_length (x : A) (s r : list A) :
  set_remove eq_dec x s = Some r -> List.length s = S (List.length r).
Proof. intros H. apply (Permutation_length (set_remove_perm _ _ _ H)). Qed.

Lemma set_remove_NoDup (x : A) (s r : list A) :
  NoDup s -> set_remove eq_dec x s = Some r ->
  NoDup r /\ forall y, In y r <-> In y s /\ y <> x.
Proof.
  intros Hs H. pose proof (set_remove_perm _ _ _ H) as P.
  pose proof (Permutation_NoDup P Hs) as Hn. inversion Hn as [|? ? Hx Hr]; subst.
  split; [assumption|]. intros y. split.
  - intros Hy. split.
    + apply (Permutation_in y (Permutation_sym P)). now right.
    + intros ->. contradiction.
  - intros [Hy Hne]. apply (Permutation_in y P) in Hy.
    destruct Hy as [->|Hy]; [congruence|assumption].
Qed.

End SetRemove.

(** ** The paths of [get_action] *)

Lemma stack_top_rev (st : State) (s0 : StateNode) :
  stack_top st = Some s0 <-> exists below, rev (stack st) = s0 :: below.
Proof.
  unfold stack_top. destruct (rev (stack st)) as [|x l]; simpl; split.
  - discriminate.
  - intros [b H]. discriminate.
  - intros [= ->]. eauto.
  - intros [b [= -> _]]. reflexivity.
Qed.

Lemma rev_nil_inv {A : Type} (l : list A) : rev l = [] -> l = [].
Proof.
  intros H. apply (f_equal (@rev A)) in H. now rewrite rev_involutive in H.
Qed.

(** Every call takes one of the paths. *)
Lemma get_action_branch (cs : bool) (self : Oracle) (st : State) :
  Branch cs self st (get_action cs self st).
Proof.
  unfold get_action.
  destruct (is_empty (edges_remaining self)) eqn:He.
  { apply Br_finish. now apply is_empty_nil. }
  assert (Hne : edges_remaining self <> []).
  { intros H. apply is_empty_nil in H. congruence. }
  destruct (rev (stack st)) as [|s0 below] eqn:Hrev.
  { apply Br_empty_stack; [assumption | now apply rev_nil_inv]. }
  assert (Htop : stack_top st = Some s0) by (apply stack_top_rev; eauto).
  destruct (is_empty (incoming_remaining self s0 ++ outgoing_remaining self s0)) eqn:Hio.
  { apply (Br_reduce _ _ _ s0); auto. now apply is_empty_nil. }
  assert (Hio' : incoming_remaining self s0 ++ outgoing_remaining self s0 <> []).
  { intros H. apply is_empty_nil in H. congruence. }
  fold (related_of self s0).
  destruct (buffer_front_related st (related_of self s0)) eqn:Hb.
  { apply (Br_shift _ _ _ s0); auto. }
  assert (Hps : past_shift self st s0) by (repeat split; auto).
  destruct below as [|s1 below'].
  - unfold unary_check.
    destruct (unary_candidate _ _ _) as [[u e]|] eqn:Hu.
    + apply (Br_unary _ _ _ s0); auto. split; auto. left.
      unfold stack_second. now rewrite Hrev.
    + apply (Br_no_rule _ _ _ s0); auto. split; auto. left.
      unfold stack_second. now rewrite Hrev.
  - assert (Hsec : stack_second st = Some s1).
    { unfold stack_second. now rewrite Hrev. }
    destruct (binary_candidate _ _ s1) as [[p e]|] eqn:Hbin.
    + apply (Br_binary _ _ _ s0 s1); auto.
    + destruct (swap_distance_of cs (stack st) (related_of self s0) =? 0) eqn:Hd; simpl.
      * apply Nat.eqb_eq in Hd. unfold unary_check.
        destruct (unary_candidate _ _ _) as [[u e]|] eqn:Hu.
        -- apply (Br_unary _ _ _ s0); auto. split; auto. right. eauto.
        -- apply (Br_no_rule _ _ _ s0); auto. split; auto. right. eauto.
      * apply Nat.eqb_neq in Hd. apply (Br_swap _ _ _ s0 s1); auto.
Qed.

Lemma is_empty_false {A : Type} (l : list A) : l <> [] -> is_empty l = false.
Proof. destruct l; simpl; congruence. Qed.

Lemma stack_second_rev (st : State) (s0 : StateNode) (below : list StateNode) :
  rev (stack st) = s0 :: below -> stack_second st = hd_error below.
Proof. unfold stack_second. intros ->. now destruct below. Qed.

(** The part of [get_action] after the SHIFT preference. *)
Lemma get_action_past_shift (cs : bool) (self : Oracle) (st : State)
    (s0 : StateNode) (below : list StateNode) :
  past_shift self st s0 ->
  rev (stack st) = s0 :: below ->
  get_action cs self st =
    match below with
    | [] => unary_check self st (incoming_remaining self s0) (outgoing_remaining self s0)
    | s1 :: _ =>
        match binary_candidate (incoming_remaining self s0)
                               (outgoing_remaining self s0) s1 with
        | Some (p, e) => discharge_binary self p e
        | None =>
            if negb (swap_distance_of cs (stack st) (related_of self s0) =? 0)
            then (Returns (SWAP (if cs then Some (swap_distance_of cs (stack st)
                                                   (related_of self s0))
                                 else None)), self)
            else unary_check self st (incoming_remaining self s0)
                                     (outgoing_remaining self s0)
        end
    end.
Proof.
  intros (Hne & _ & Hio & Hb) Hrev. unfold get_action.
  rewrite (is_empty_false _ Hne), Hrev, (is_empty_false _ Hio).
  fold (related_of self s0). now rewrite Hb.
Qed.

Lemma get_action_past_swap (cs : bool) (self : Oracle) (st : State) (s0 : StateNode) :
  past_swap cs self st s0 ->
  get_action cs self st =
    unary_check self st (incoming_remaining self s0) (outgoing_remaining self s0).
Proof.
  intros [Hps Hsw]. pose proof Hps as (_ & Htop & _).
  apply stack_top_rev in Htop. destruct Htop as [below Hrev].
  rewrite (get_action_past_shift cs self st s0 below Hps Hrev).
  rewrite (stack_second_rev st s0 below Hrev) in Hsw.
  destruct below as [|s1 below']; [reflexivity|]. simpl in Hsw.
  destruct Hsw as [Hsw | (s1' & [= <-] & Hbin & Hd)]; [discriminate|].
  now rewrite Hbin, Hd.
Qed.

(** A path's conditions decide the call. *)
Lemma branch_get_action (cs : bool) (self : Oracle) (st : State) (r : Outcome * Oracle) :
  Branch cs self st r -> get_action cs self st = r.
Proof.
  intros B. destruct B as
      [He | Hne Hst | s0 Hne Htop Hio | s0 Hne Htop Hio Hb
       | s0 s1 p e Hps Hsec Hbin | s0 s1 Hps Hsec Hbin Hd
       | s0 u e Hpw Hu | s0 Hpw Hu].
  - unfold get_action. now rewrite He.
  - unfold get_action. now rewrite (is_empty_false _ Hne), Hst.
  - unfold get_action. apply stack_top_rev in Htop. destruct Htop as [below Hrev].
    now rewrite (is_empty_false _ Hne), Hrev, Hio.
  - unfold get_action. apply stack_top_rev in Htop. destruct Htop as [below Hrev].
    rewrite (is_empty_false _ Hne), Hrev, (is_empty_false _ Hio).
    fold (related_of self s0). now rewrite Hb.
  - pose proof Hps as (_ & Htop & _). apply stack_top_rev in Htop.
    destruct Htop as [below Hrev].
    rewrite (get_action_past_shift cs self st s0 below Hps Hrev).
    rewrite (stack_second_rev st s0 below Hrev) in Hsec.
    destruct below as [|s1' ?]; [discriminate|]. injection Hsec as ->.
    now rewrite Hbin.
  - pose proof Hps as (_ & Htop & _). apply stack_top_rev in Htop.
    destruct Htop as [below Hrev].
    rewrite (get_action_past_shift cs self st s0 below Hps Hrev).
    rewrite (stack_second_rev st s0 below Hrev) in Hsec.
    destruct below as [|s1' ?]; [discriminate|]. injection Hsec as ->.
    rewrite Hbin. apply Nat.eqb_neq in Hd. now rewrite Hd.
  - rewrite (get_action_past_swap cs self st s0 Hpw). unfold unary_check. now rewrite Hu.
  - rewrite (get_action_past_swap cs self st s0 Hpw). unfold unary_check. now rewrite Hu.
Qed.

(** ** What the discharge steps return *)

Lemma binary_candidate_In (inc out : list Edge) (s1 : StateNode) (p : Prefix) (e : Edge) :
  binary_candidate inc out s1 = Some (p, e) ->
  match p with
  | RIGHT => In e inc /\ ID (parent e) = node_id s1
  | LEFT => In e out /\ ID (child e) = node_id s1
  end.
Proof.
  unfold binary_candidate. intros H.
  destruct (find _ inc) as [e1|] eqn:E1.
  - injection H as <- <-. apply find_some in E1. unfold parent_is in E1.
    now rewrite String.eqb_eq in E1.
  - destruct (find _ out) as [e2|] eqn:E2; [|discriminate].
    injection H as <- <-. apply find_some in E2. unfold child_is in E2.
    now rewrite String.eqb_eq in E2.
Qed.

Lemma unary_candidate_In (nodes : list string) (inc out : list Edge) (u : Unary) (e : Edge) :
  unary_candidate nodes inc out = Some (u, e) ->
  match u with
  | U_NODE => In e inc /\ In (ID (parent e)) nodes /\ remote e = false
  | U_IMPLICIT => In e out /\ implicit (child e) = true
  end.
Proof.
  unfold unary_candidate. intros H.
  destruct (find _ inc) as [e1|] eqn:E1.
  - injection H as <- <-. apply find_some in E1. destruct E1 as [Hin Hc].
    unfold parent_to_create in Hc. apply andb_true_iff in Hc. destruct Hc as [Hm Hr].
    apply mem_id_In in Hm. apply negb_true_iff in Hr. auto.
  - destruct (find _ out) as [e2|] eqn:E2; [|discriminate].
    injection H as <- <-. now apply find_some in E2.
Qed.

Lemma incoming_remaining_In (self : Oracle) (s0 : StateNode) (e : Edge) :
  In e (incoming_remaining self s0) <->
  In e (edges_remaining self) /\ In e (incoming (orig_node s0)).
Proof. apply intersection_In. Qed.

Lemma outgoing_remaining_In (self : Oracle) (s0 : StateNode) (e : Edge) :
  In e (outgoing_remaining self s0) <->
  In e (edges_remaining self) /\ In e (outgoing (orig_node s0)).
Proof. apply intersection_In. Qed.

Lemma no_rule_cases (self : Oracle) (st : State) :
  (buffer st = []
   /\ no_rule self st =
        (Raises (NoActionPossible st (nodes_remaining self) (edges_remaining self)), self))
  \/ (buffer st <> [] /\ no_rule self st = (Returns SHIFT, self)).
Proof.
  unfold no_rule. destruct (buffer st); simpl; [left | right]; split; congruence.
Qed.

Lemma discharge_binary_cases (self : Oracle) (p : Prefix) (e : Edge) :
  In e (edges_remaining self) ->
  exists edges',
    set_remove Edge_eq_dec e (edges_remaining self) = Some edges'
    /\ discharge_binary self p e =
         (Returns (binary_action p e), mkOracle (nodes_remaining self) edges').
Proof.
  intros Hin. destruct (set_remove_In Edge_eq_dec e _ Hin) as [edges' Hr].
  exists edges'. split; [assumption|]. unfold discharge_binary. now rewrite Hr.
Qed.

Lemma discharge_unary_cases (self : Oracle) (u : Unary) (e : Edge) :
  In e (edges_remaining self) ->
  exists edges',
    set_remove Edge_eq_dec e (edges_remaining self) = Some edges'
    /\ ((exists nodes',
           set_remove string_dec (ID (unary_node u e)) (nodes_remaining self) = Some nodes'
           /\ discharge_unary self u e = (Returns (unary_action u e), mkOracle nodes' edges'))
        \/ (~ In (ID (unary_node u e)) (nodes_remaining self)
            /\ discharge_unary self u e =
                 (Raises (KeyError_node (ID (unary_node u e))),
                  mkOracle (nodes_remaining self) edges'))).
Proof.
  intros Hin. destruct (set_remove_In Edge_eq_dec e _ Hin) as [edges' Hr].
  exists edges'. split; [assumption|]. unfold discharge_unary. rewrite Hr.
  destruct (set_remove string_dec (ID (unary_node u e)) (nodes_remaining self))
    as [nodes'|] eqn:Hn.
  - left. exists nodes'. split; reflexivity.
  - right. split; [now apply (set_remove_None string_dec)|reflexivity].
Qed.

Lemma binary_action_discharges (p : Prefix) (e : Edge) :
  discharges (binary_action p e) = true.
Proof. unfold binary_action. now destruct p, (remote e). Qed.

Lemma unary_action_discharges (u : Unary) (e : Edge) :
  discharges (unary_action u e) = true.
Proof. now destruct u. Qed.

(** The edge a path discharges is one of the remaining edges. *)
Lemma binary_candidate_remaining (self : Oracle) (s0 s1 : StateNode) (p : Prefix) (e : Edge) :
  binary_candidate (incoming_remaining self s0) (outgoing_remaining self s0) s1
    = Some (p, e) ->
  In e (edges_remaining self).
Proof.
  intros H. apply binary_candidate_In in H.
  destruct p; destruct H as [H _];
    [apply incoming_remaining_In in H | apply outgoing_remaining_In in H]; tauto.
Qed.

Lemma unary_candidate_remaining (self : Oracle) (s0 : StateNode) (u : Unary) (e : Edge) :
  unary_candidate (nodes_remaining self) (incoming_remaining self s0)
                  (outgoing_remaining self s0) = Some (u, e) ->
  In e (edges_remaining self).
Proof.
  intros H. apply unary_candidate_In in H.
  destruct u; destruct H as [H _];
    [apply incoming_remaining_In in H | apply outgoing_remaining_In in H]; tauto.
Qed.

Lemma get_action_effect (cs : bool) (self : Oracle) (st : State) :
  Effect self (snd (get_action cs self st)) (fst (get_action cs self st)).
Proof.
  destruct (get_action_branch cs self st) as
      [He | Hne Hst | s0 Hne Htop Hio | s0 Hne Htop Hio Hb
       | s0 s1 p e Hps Hsec Hbin | s0 s1 Hps Hsec Hbin Hd
       | s0 u e Hpw Hu | s0 Hpw Hu]; simpl.
  - apply Eff_none; [intros a [= <-]; reflexivity | discriminate | reflexivity].
  - destruct (no_rule_cases self st) as [[_ ->] | [_ ->]]; simpl;
      (apply Eff_none; [intros a [= <-] || intros a [=]; reflexivity
                       | discriminate | reflexivity]).
  - apply Eff_none; [intros a [= <-]; reflexivity | discriminate | reflexivity].
  - apply Eff_none; [intros a [= <-]; reflexivity | discriminate | reflexivity].
  - pose proof (binary_candidate_remaining _ _ _ _ _ Hbin) as Hin.
    destruct (discharge_binary_cases self p e Hin) as (edges' & Hr & ->). simpl.
    now apply Eff_binary.
  - apply Eff_none; [intros a [= <-]; reflexivity | discriminate | reflexivity].
  - pose proof (unary_candidate_remaining _ _ _ _ Hu) as Hin.
    destruct (discharge_unary_cases self u e Hin)
      as (edges' & Hr & [(nodes' & Hn & ->) | (Hn & ->)]); simpl.
    + now apply Eff_unary.
    + now apply Eff_keyerror.
  - destruct (no_rule_cases self st) as [[_ ->] | [_ ->]]; simpl;
      (apply Eff_none; [intros a [= <-] || intros a [=]; reflexivity
                       | discriminate | reflexivity]).
Qed.

(** C2: a call that returns NODE, IMPLICIT or one of the four binary edge
    actions removes exactly one edge, the discharged one, from
    [edges_remaining]; a call that returns SHIFT, REDUCE, SWAP or FINISH
    leaves [edges_remaining] as it was; whatever the outcome, neither set
    gains an element. *)
Theorem C2_remaining_sets_shrink (cs : bool) (self self' : Oracle) (st : State)
    (out : Outcome) :
  get_action cs self st = (out, self') ->
  (forall a, out = Returns a -> discharges a = true ->
     exists e,
       In e (edges_remaining self)
       /\ set_remove Edge_eq_dec e (edges_remaining self) = Some (edges_remaining self')
       /\ Permutation (edges_remaining self) (e :: edges_remaining self')
       /\ List.length (edges_remaining self) = S (List.length (edges_remaining self'))
       /\ (NoDup (edges_remaining self) ->
           forall x, In x (edges_remaining self') <->
                     In x (edges_remaining self) /\ x <> e)
       /\ ((exists p, a = binary_action p e) \/ (exists u, a = unary_action u e)))
  /\ (forall a, out = Returns a -> discharges a = false ->
        edges_remaining self' = edges_remaining self)
  /\ incl (edges_remaining self') (edges_remaining self)
  /\ incl (nodes_remaining self') (nodes_remaining self)
  /\ List.length (edges_remaining self') <= List.length (edges_remaining self)
  /\ List.length (nodes_remaining self') <= List.length (nodes_remaining self).
Proof.
  intros H. pose proof (get_action_effect cs self st) as E. rewrite H in E. simpl in E.
  assert (Hrm : forall e, set_remove Edge_eq_dec e (edges_remaining self)
                          = Some (edges_remaining self') ->
                In e (edges_remaining self)
                /\ set_remove Edge_eq_dec e (edges_remaining self)
                   = Some (edges_remaining self')
                /\ Permutation (edges_remaining self) (e :: edges_remaining self')
                /\ List.length (edges_remaining self) = S (List.length (edges_remaining self'))
                /\ (NoDup (edges_remaining self) ->
                    forall x, In x (edges_remaining self') <->
                              In x (edges_remaining self) /\ x <> e)).
  { intros e Hr. pose proof (set_remove_perm _ _ _ _ Hr) as P.
    split; [|split; [|split; [|split]]].
    - apply (Permutation_in e (Permutation_sym P)). now left.
    - assumption.
    - assumption.
    - now apply Permutation_length in P.
    - intros Hnd. apply (set_remove_NoDup Edge_eq_dec e _ _ Hnd Hr). }
  inversion E as [out' Hnd Hnk Heq | p e Hr Hn | u e Hr Hn | u e Hr Hn Hnin];
    subst; (split; [|split; [|split; [|split; [|split]]]]).
  - intros a -> Hd. rewrite (Hnd a eq_refl) in Hd. discriminate.
  - reflexivity.
  - apply incl_refl.
  - apply incl_refl.
  - lia.
  - lia.
  - intros a' [= <-] _. exists e. destruct (Hrm e Hr) as (H1 & H2 & H3 & H4 & H5).
    repeat (split; [assumption|]). left. now exists p.
  - intros a' [= <-] Hd'. rewrite binary_action_discharges in Hd'. discriminate.
  - apply (set_remove_incl _ _ _ _ Hr).
  - rewrite Hn. apply incl_refl.
  - apply set_remove_length in Hr. lia.
  - rewrite Hn. lia.
  - intros a' [= <-] _. exists e. destruct (Hrm e Hr) as (H1 & H2 & H3 & H4 & H5).
    repeat (split; [assumption|]). right. now exists u.
  - intros a' [= <-] Hd'. rewrite unary_action_discharges in Hd'. discriminate.
  - apply (set_remove_incl _ _ _ _ Hr).
  - apply (set_remove_incl _ _ _ _ Hn).
  - apply set_remove_length in Hr. lia.
  - apply set_remove_length in Hn. lia.
  - discriminate.
  - discriminate.
  - apply (set_remove_incl _ _ _ _ Hr).
  - rewrite Hn. apply incl_refl.
  - apply set_remove_length in Hr. lia.
  - rewrite Hn. lia.
Qed.

(** ** Reading a returned action back *)

Lemma no_rule_returns (self self' : Oracle) (st : State) (a : Action) :
  no_rule self st = (Returns a, self') -> a = SHIFT /\ buffer st <> [].
Proof.
  destruct (no_rule_cases self st) as [[_ ->] | [Hb ->]]; intros [= <- _]; auto.
Qed.

Lemma discharge_binary_returns (self self' : Oracle) (p : Prefix) (e : Edge) (a : Action) :
  discharge_binary self p e = (Returns a, self') -> a = binary_action p e.
Proof.
  unfold discharge_binary. destruct (set_remove _ _ _); intros [= <- _]; reflexivity.
Qed.

Lemma discharge_unary_returns (self self' : Oracle) (u : Unary) (e : Edge) (a : Action) :
  discharge_unary self u e = (Returns a, self') ->
  a = unary_action u e /\ In (ID (unary_node u e)) (nodes_remaining self).
Proof.
  unfold discharge_unary. destruct (set_remove Edge_eq_dec _ _); [|discriminate].
  destruct (set_remove string_dec _ _) eqn:Hn; intros [= <- _]. split; [reflexivity|].
  destruct (in_dec string_dec (ID (unary_node u e)) (nodes_remaining self)) as [|Hnin];
    [assumption|].
  apply (set_remove_None string_dec) in Hnin. congruence.
Qed.

Lemma get_action_returned (cs : bool) (self : Oracle) (st : State) (a : Action) :
  fst (get_action cs self st) = Returns a <-> Returned cs self st a.
Proof.
  split.
  - intros H. pose proof (get_action_branch cs self st) as B.
    destruct (get_action cs self st) as [out self'] eqn:E. simpl in H. subst out.
    inversion B as
      [He | Hne Hst Hr | s0 Hne Htop Hio | s0 Hne Htop Hio Hb
       | s0 s1 p e Hps Hsec Hbin Hr | s0 s1 Hps Hsec Hbin Hd
       | s0 u e Hpw Hu Hr | s0 Hpw Hu Hr]; subst.
    + now apply Ret_finish.
    + apply no_rule_returns in Hr. destruct Hr as [-> Hb].
      now apply Ret_shift_empty_stack.
    + now apply (Ret_reduce _ _ _ s0).
    + now apply (Ret_shift_related _ _ _ s0).
    + apply discharge_binary_returns in Hr. subst a.
      now apply (Ret_binary _ _ _ s0 s1).
    + now apply (Ret_swap _ _ _ s0 s1).
    + apply discharge_unary_returns in Hr. destruct Hr as [-> Hin].
      now apply (Ret_unary _ _ _ s0).
    + apply no_rule_returns in Hr. destruct Hr as [-> Hb].
      now apply (Ret_shift_no_rule _ _ _ s0).
  - intros R. destruct R as
      [He | s0 Hne Htop Hio | s0 Hne Htop Hio Hb | Hne Hst Hb | s0 Hpw Hu Hb
       | s0 s1 p e Hps Hsec Hbin | s0 s1 Hps Hsec Hbin Hd | s0 u e Hpw Hu Hin].
    + now rewrite (branch_get_action _ _ _ _ (Br_finish cs self st He)).
    + now rewrite (branch_get_action _ _ _ _ (Br_reduce cs self st s0 Hne Htop Hio)).
    + now rewrite (branch_get_action _ _ _ _ (Br_shift cs self st s0 Hne Htop Hio Hb)).
    + rewrite (branch_get_action _ _ _ _ (Br_empty_stack cs self st Hne Hst)).
      destruct (no_rule_cases self st) as [[Hb' _] | [_ ->]]; [contradiction|reflexivity].
    + rewrite (branch_get_action _ _ _ _ (Br_no_rule cs self st s0 Hpw Hu)).
      destruct (no_rule_cases self st) as [[Hb' _] | [_ ->]]; [contradiction|reflexivity].
    + rewrite (branch_get_action _ _ _ _ (Br_binary cs self st s0 s1 p e Hps Hsec Hbin)).
      destruct (discharge_binary_cases self p e
                  (binary_candidate_remaining _ _ _ _ _ Hbin)) as (edges' & _ & ->).
      reflexivity.
    + now rewrite (branch_get_action _ _ _ _ (Br_swap cs self st s0 s1 Hps Hsec Hbin Hd)).
    + rewrite (branch_get_action _ _ _ _ (Br_unary cs self st s0 u e Hpw Hu)).
      destruct (discharge_unary_cases self u e (unary_candidate_remaining _ _ _ _ Hu))
        as (edges' & _ & [(nodes' & _ & ->) | (Hn & _)]); [reflexivity|contradiction].
Qed.

Lemma stack_top_nonempty (st : State) (s0 : StateNode) :
  stack_top st = Some s0 -> stack st <> [].
Proof. unfold stack_top. intros H E. rewrite E in H. discriminate. Qed.

Lemma binary_action_not_plain (p : Prefix) (e : Edge) :
  binary_action p e <> REDUCE /\ binary_action p e <> SHIFT
  /\ binary_action p e <> FINISH
  /\ (forall d, binary_action p e <> SWAP d)
  /\ (forall t n, binary_action p e <> NODE t n)
  /\ (forall t n, binary_action p e <> IMPLICIT t n).
Proof. unfold binary_action. destruct p, (remote e); repeat split; intros; discriminate. Qed.

(** C3: REDUCE is returned exactly when edges remain, the stack is not
    empty and no remaining edge has the gold node of the top of the stack as
    its parent or as its child.  The hypothesis is the graph model's
    invariant relating the node's edge lists to edge endpoints. *)
Theorem C3_reduce_iff (cs : bool) (self : Oracle) (st : State) :
  (forall s0, stack_top st = Some s0 ->
     incident_lists_agree (orig_node s0) (edges_remaining self)) ->
  fst (get_action cs self st) = Returns REDUCE <->
  (edges_remaining self <> []
   /\ exists s0, stack_top st = Some s0
        /\ forall e, In e (edges_remaining self) ->
             parent e <> node (orig_node s0) /\ child e <> node (orig_node s0)).
Proof.
  intros Hwf. rewrite get_action_returned. split.
  - intros R. inversion R as
      [ | s0 Hne Htop Hio | | | | s0 s1 p e Hps Hsec Hbin Ha | | s0 u e Hpw Hu Hin Ha ].
    + split; [assumption|]. exists s0. split; [assumption|].
      apply app_eq_nil in Hio. destruct Hio as [Hi Ho].
      intros e He. destruct (Hwf s0 Htop e He) as [Hinc Hout]. split; intros Heq.
      * apply Hout in Heq.
        assert (Hin : In e (outgoing_remaining self s0))
          by (apply outgoing_remaining_In; auto).
        rewrite Ho in Hin. contradiction.
      * apply Hinc in Heq.
        assert (Hin : In e (incoming_remaining self s0))
          by (apply incoming_remaining_In; auto).
        rewrite Hi in Hin. contradiction.
    + pose proof (binary_action_not_plain p e) as (Hx & _). congruence.
    + destruct u; discriminate.
  - intros (Hne & s0 & Htop & Hno). apply (Ret_reduce _ _ _ s0); auto.
    destruct (incoming_remaining self s0 ++ outgoing_remaining self s0) as [|e l] eqn:E;
      [reflexivity|].
    exfalso. assert (Hin : In e (incoming_remaining self s0 ++ outgoing_remaining self s0))
      by (rewrite E; now left).
    apply in_app_or in Hin. destruct Hin as [Hin | Hin].
    + apply incoming_remaining_In in Hin. destruct Hin as [He Hi].
      apply (Hwf s0 Htop e He) in Hi. destruct (Hno e He) as [_ Hc]. contradiction.
    + apply outgoing_remaining_In in Hin. destruct Hin as [He Ho].
      apply (Hwf s0 Htop e He) in Ho. destruct (Hno e He) as [Hp _]. contradiction.
Qed.

(** C7: when edges remain, the stack is not empty, and the node at the
    front of the buffer is the other endpoint of a remaining edge of the top
    of the stack, the call returns SHIFT (and keeps both sets), whatever the
    binary, swap and unary checks would have found. *)
Theorem C7_shift_preferred (cs : bool) (self : Oracle) (st : State)
    (s0 b0 : StateNode) (rest : list StateNode) (e : Edge) :
  stack_top st = Some s0 ->
  buffer st = b0 :: rest ->
  In e (edges_remaining self) ->
  (In e (incoming (orig_node s0)) /\ node_id b0 = ID (parent e))
  \/ (In e (outgoing (orig_node s0)) /\ node_id b0 = ID (child e)) ->
  get_action cs self st = (Returns SHIFT, self).
Proof.
  intros Htop Hbuf He Hrel. apply branch_get_action, (Br_shift _ _ _ s0); auto.
  - intros E. rewrite E in He. contradiction.
  - intros E. apply app_eq_nil in E. destruct E as [Ei Eo].
    destruct Hrel as [[Hi _] | [Ho _]].
    + assert (Hin : In e (incoming_remaining self s0))
        by (apply incoming_remaining_In; auto).
      rewrite Ei in Hin. contradiction.
    + assert (Hin : In e (outgoing_remaining self s0))
        by (apply outgoing_remaining_In; auto).
      rewrite Eo in Hin. contradiction.
  - unfold buffer_front_related. rewrite Hbuf. apply mem_id_In.
    unfold related_of, related_ids. apply in_or_app.
    destruct Hrel as [[Hi ->] | [Ho ->]].
    + right. apply in_map_iff. exists e. split; [reflexivity|].
      apply incoming_remaining_In; auto.
    + left. apply in_map_iff. exists e. split; [reflexivity|].
      apply outgoing_remaining_In; auto.
Qed.

(** C10: with an empty stack, remaining edges and a non-empty buffer the
    call returns SHIFT; REDUCE, the binary edge actions, SWAP, NODE and
    IMPLICIT are returned only when the stack is not empty. *)
Theorem C10_empty_stack_shift (cs : bool) (self : Oracle) (st : State) :
  (stack st = [] -> edges_remaining self <> [] -> buffer st <> [] ->
   get_action cs self st = (Returns SHIFT, self))
  /\ (forall a, fst (get_action cs self st) = Returns a ->
        a = REDUCE \/ discharges a = true \/ (exists d, a = SWAP d) ->
        stack st <> []).
Proof.
  split.
  - intros Hst Hne Hb.
    rewrite (branch_get_action _ _ _ _ (Br_empty_stack cs self st Hne Hst)).
    destruct (no_rule_cases self st) as [[Hb' _] | [_ ->]]; [contradiction|reflexivity].
  - intros a H Ha. apply get_action_returned in H.
    destruct H as
      [He | s0 Hne Htop Hio | s0 Hne Htop Hio Hb | Hne Hst Hb | s0 Hpw Hu Hb
       | s0 s1 p e Hps Hsec Hbin | s0 s1 Hps Hsec Hbin Hd | s0 u e Hpw Hu Hin];
      try (destruct Ha as [Ha | [Ha | [d Ha]]]; discriminate);
      try (apply (stack_top_nonempty st s0); assumption).
    + apply (stack_top_nonempty st s0), Hps.
    + apply (stack_top_nonempty st s0), Hps.
    + apply (stack_top_nonempty st s0), Hpw.
Qed.

(** ** The swap loop *)

Section SwapLoop.

Variable cs : bool.
Variable stk : list StateNode.
Variable related : list string.

Lemma swap_cond_true (k : nat) :
  swap_cond cs stk related k = true <->
  k + 1 < List.length stk
  /\ (cs = true \/ k < 1)
  /\ incl related (map node_id (stack_below stk k)).
Proof.
  unfold swap_cond. rewrite !andb_true_iff, orb_true_iff, !Nat.ltb_lt, issubset_incl.
  tauto.
Qed.

(** Every value the loop went through passed the test. *)
Lemma swap_loop_passed (fuel d k : nat) :
  d <= k < swap_loop cs fuel stk related d -> swap_cond cs stk related k = true.
Proof.
  revert d. induction fuel as [|fuel IH]; intros d Hk; simpl in Hk; [lia|].
  destruct (swap_cond cs stk related d) eqn:Hc; [|lia].
  destruct (Nat.eq_dec k d) as [->|Hne]; [assumption|].
  apply (IH (d + 1)). lia.
Qed.

(** With fuel for the whole stack the loop stops on a failed test, as the
    [while] does. *)
Lemma swap_loop_exit (fuel d : nat) :
  List.length stk <= fuel + d ->
  swap_cond cs stk related (swap_loop cs fuel stk related d) = false.
Proof.
  revert d. induction fuel as [|fuel IH]; intros d Hf; simpl.
  - destruct (swap_cond cs stk related d) eqn:Hc; [|reflexivity].
    apply swap_cond_true in Hc. lia.
  - destruct (swap_cond cs stk related d) eqn:Hc; [|assumption].
    apply IH. lia.
Qed.

Lemma stack_below_incl (k k' : nat) :
  k <= k' -> incl (stack_below stk k') (stack_below stk k).
Proof.
  intros Hk. unfold stack_below.
  replace (List.length stk - (k' + 2))
    with (Nat.min (List.length stk - (k' + 2)) (List.length stk - (k + 2))) by lia.
  rewrite <- firstn_firstn. intros x Hx.
  apply (In_nth _ _ x) in Hx. destruct Hx as (n & Hn & <-).
  rewrite length_firstn in Hn. rewrite nth_firstn.
  destruct (n <? List.length stk - (k' + 2)) eqn:E.
  - apply nth_In. rewrite length_firstn.
    apply Nat.ltb_lt in E. rewrite length_firstn in Hn. lia.
  - apply Nat.ltb_ge in E. lia.
Qed.

End SwapLoop.

Lemma swap_action_not_discharge (p : Prefix) (u : Unary) (e : Edge) (d : option nat) :
  binary_action p e <> SWAP d /\ unary_action u e <> SWAP d.
Proof. unfold binary_action. destruct p, u, (remote e); split; discriminate. Qed.

(** C4 (as amended): when SWAP is returned with compound swap off, the
    loop has stopped at 1 and the action carries no distance; with compound
    swap on the action carries the loop's final value, which is at least 1,
    and the loop test (the stack is longer than [swap_distance + 1] and
    related is a subset of the IDs below the top [swap_distance + 2] stack
    positions) holds for every [swap_distance] smaller than that value and
    for no other, so not for the value itself: the distance is one more
    than the largest [swap_distance] that passes. *)
Theorem C4_swap_distance (cs : bool) (self : Oracle) (st : State) (d : option nat) :
  fst (get_action cs self st) = Returns (SWAP d) ->
  exists s0, stack_top st = Some s0 /\
    let related := related_of self s0 in
    let D := swap_distance_of cs (stack st) related in
    d = (if cs then Some D else None)
    /\ 1 <= D
    /\ (forall k, k < D ->
          k + 1 < List.length (stack st)
          /\ incl related (map node_id (stack_below (stack st) k)))
    /\ (cs = false -> D = 1)
    /\ (cs = true ->
        forall k, k + 1 < List.length (stack st) ->
                  incl related (map node_id (stack_below (stack st) k)) ->
                  k < D)
    /\ (cs = true ->
        ~ (D + 1 < List.length (stack st)
           /\ incl related (map node_id (stack_below (stack st) D)))).
Proof.
  intros H. apply get_action_returned in H.
  inversion H as
    [ | | | | | s0 s1 p e Hps Hsec Hbin Ha | s0 s1 Hps Hsec Hbin Hd Ha
      | s0 u e Hpw Hu Hin Ha ].
  - destruct (swap_action_not_discharge p U_NODE e d) as [Hx _]. congruence.
  - exists s0. split; [apply Hps|]. cbv zeta.
    set (related := related_of self s0) in *.
    set (D := swap_distance_of cs (stack st) related) in *.
    assert (Hpass : forall k, k < D -> swap_cond cs (stack st) related k = true).
    { intros k Hk. apply (swap_loop_passed cs (stack st) related (List.length (stack st)) 0).
      fold (swap_distance_of cs (stack st) related). fold D. lia. }
    assert (Hexit : swap_cond cs (stack st) related D = false).
    { apply (swap_loop_exit cs (stack st) related (List.length (stack st)) 0). lia. }
    split; [reflexivity|]. split; [lia|]. split; [|split; [|split]].
    + intros k Hk. apply Hpass, swap_cond_true in Hk. tauto.
    + intros ->. destruct (Nat.le_gt_cases D 1) as [|Hgt]; [lia|].
      assert (Hc : swap_cond false (stack st) related 1 = true) by (apply Hpass; lia).
      apply swap_cond_true in Hc. destruct Hc as (_ & [? | ?] & _); [discriminate | lia].
    + intros -> k Hlen Hsub. destruct (Nat.lt_ge_cases k D) as [|Hge]; [assumption|].
      exfalso. assert (Hc : swap_cond true (stack st) related D = true).
      { apply swap_cond_true. split; [lia|]. split; [now left|].
        intros x Hx. apply Hsub in Hx. apply in_map_iff in Hx.
        destruct Hx as (s & <- & Hs). apply in_map.
        now apply (stack_below_incl (stack st) D k Hge). }
      congruence.
    + intros -> [Hlen Hsub].
      assert (Hc : swap_cond true (stack st) related D = true).
      { apply swap_cond_true. split; [assumption|]. split; [now left | assumption]. }
      congruence.
  - destruct (swap_action_not_discharge RIGHT u e d) as [_ Hx]. congruence.
Qed.

(** C4 (as stated) fails on both counts.  With compound swap on, the
    distance returned for [Sample.deep_root_state] is 2, and the root, the
    one related node, is not among the nodes deeper than position 2 + 2
    from the top: the largest value for which the test holds is 1.  With
    compound swap off the action carries no distance at all. *)
Lemma C4_distance_fails_its_test :
  ~ (forall (self : Oracle) (st : State) (D : nat),
       fst (get_action true self st) = Returns (SWAP (Some D)) ->
       exists s0, stack_top st = Some s0
         /\ 1 <= D
         /\ incl (related_of self s0) (map node_id (stack_below (stack st) D))
         /\ forall k, incl (related_of self s0)
                           (map node_id (stack_below (stack st) k)) -> k <= D)
  /\ ~ (forall (self : Oracle) (st : State) (d : option nat),
         fst (get_action false self st) = Returns (SWAP d) -> d = Some 1).
Proof.
  split.
  - intros H.
    destruct (H Sample.root_edge_left Sample.deep_root_state 2 eq_refl)
      as (s0 & Htop & _ & Hsub & _).
    vm_compute in Htop. injection Htop as <-.
    specialize (Hsub "1.1"%string). vm_compute in Hsub. apply Hsub. now left.
  - intros H.
    specialize (H Sample.root_edge_left Sample.deep_root_state None eq_refl).
    discriminate.
Qed.

(** ** Reading a raised error back *)

Lemma get_action_raised (cs : bool) (self : Oracle) (st : State) (r : Raised) :
  fst (get_action cs self st) = Raises r <-> RaisedBy cs self st r.
Proof.
  split.
  - intros H. pose proof (get_action_branch cs self st) as B.
    destruct (get_action cs self st) as [out self'] eqn:E. simpl in H. subst out.
    inversion B as
      [He | Hne Hst Hr | s0 Hne Htop Hio | s0 Hne Htop Hio Hb
       | s0 s1 p e Hps Hsec Hbin Hr | s0 s1 Hps Hsec Hbin Hd
       | s0 u e Hpw Hu Hr | s0 Hpw Hu Hr]; subst.
    + destruct (no_rule_cases self st) as [[Hb Hn] | [Hb Hn]];
        rewrite Hn in Hr; [|discriminate]. injection Hr as <- _.
      now apply Rai_empty_stack.
    + destruct (discharge_binary_cases self p e
                  (binary_candidate_remaining _ _ _ _ _ Hbin)) as (edges' & _ & Hn).
      rewrite Hn in Hr. discriminate.
    + pose proof (unary_candidate_In _ _ _ _ _ Hu) as Hc.
      destruct (discharge_unary_cases self u e (unary_candidate_remaining _ _ _ _ Hu))
        as (edges' & _ & [(nodes' & _ & Hn) | (Hnin & Hn)]);
        rewrite Hn in Hr; [discriminate|]. injection Hr as <- _.
      destruct u; simpl in *; [tauto|]. now apply (Rai_implicit _ _ _ s0).
    + destruct (no_rule_cases self st) as [[Hb Hn] | [Hb Hn]];
        rewrite Hn in Hr; [|discriminate]. injection Hr as <- _.
      now apply (Rai_no_rule _ _ _ s0).
  - intros R. destruct R as [Hne Hst Hb | s0 Hpw Hu Hb | s0 e Hpw Hu Hnin].
    + rewrite (branch_get_action _ _ _ _ (Br_empty_stack cs self st Hne Hst)).
      destruct (no_rule_cases self st) as [[_ ->] | [Hb' _]]; [reflexivity|contradiction].
    + rewrite (branch_get_action _ _ _ _ (Br_no_rule cs self st s0 Hpw Hu)).
      destruct (no_rule_cases self st) as [[_ ->] | [Hb' _]]; [reflexivity|contradiction].
    + rewrite (branch_get_action _ _ _ _ (Br_unary cs self st s0 U_IMPLICIT e Hpw Hu)).
      destruct (discharge_unary_cases self U_IMPLICIT e
                  (unary_candidate_remaining _ _ _ _ Hu))
        as (edges' & _ & [(nodes' & Hn & _) | (_ & ->)]); [|reflexivity].
      exfalso. apply Hnin. apply (set_remove_perm string_dec) in Hn.
      apply (Permutation_in _ (Permutation_sym Hn)). now left.
Qed.

(** The removals that the code guards do not fail: no call raises a
    [KeyError] for an edge, and none for the parent a NODE action creates. *)
Lemma guarded_removals_succeed (cs : bool) (self : Oracle) (st : State) (r : Raised) :
  fst (get_action cs self st) = Raises r ->
  (forall e, r <> KeyError_edge e)
  /\ (forall k, r = KeyError_node k ->
        exists s0 e,
          unary_candidate (nodes_remaining self) (incoming_remaining self s0)
                          (outgoing_remaining self s0) = Some (U_IMPLICIT, e)
          /\ k = ID (child e)).
Proof.
  intros H. apply get_action_raised in H.
  destruct H as [Hne Hst Hb | s0 Hpw Hu Hb | s0 e Hpw Hu Hnin];
    (split; [discriminate|]); try discriminate.
  intros k [= <-]. now exists s0, e.
Qed.

(** The two sample states are reached by runs from the fresh state, a
    created parent being pushed above the top. *)
Lemma sample_remote_call_reached :
  fst (Sample.at_call AboveTop Sample.remote_first 2) = Sample.remote_call_oracle
  /\ state (snd (Sample.at_call AboveTop Sample.remote_first 2))
     = Sample.remote_call_state.
Proof. split; vm_compute; reflexivity. Qed.

Lemma sample_second_parent_reached :
  fst (Sample.at_call AboveTop Sample.shared_implicit 10) = Sample.second_parent_oracle
  /\ state (snd (Sample.at_call AboveTop Sample.shared_implicit 10))
     = Sample.second_parent_state.
Proof. split; vm_compute; reflexivity. Qed.

(** With a created parent put in place of the top the runs reach the same
    two calls, the terminal no longer on the stack: the fourth call on
    [Sample.remote_first] returns IMPLICIT and removes the remote edge, the
    ninth call on [Sample.shared_implicit] raises the [KeyError]. *)
Lemma sample_remote_call_reached_in_place :
  fst (Sample.at_call InPlaceOfTop Sample.remote_first 3)
  = Sample.remote_call_oracle_in_place
  /\ state (snd (Sample.at_call InPlaceOfTop Sample.remote_first 3))
     = Sample.remote_call_state_in_place
  /\ get_action false Sample.remote_call_oracle_in_place
       Sample.remote_call_state_in_place
     = (Returns (IMPLICIT "A" Sample.n_impl),
        mkOracle ["1.4"]%string
          [Sample.e_root_unit; Sample.e_unit_t2; Sample.e_unit_impl_primary])
  /\ remote Sample.e_scene_impl_remote = true.
Proof. repeat split; vm_compute; reflexivity. Qed.

Lemma sample_second_parent_reached_in_place :
  fst (Sample.at_call InPlaceOfTop Sample.shared_implicit 8)
  = Sample.second_parent_oracle_in_place
  /\ state (snd (Sample.at_call InPlaceOfTop Sample.shared_implicit 8))
     = Sample.second_parent_state_in_place
  /\ get_action false Sample.second_parent_oracle_in_place
       Sample.second_parent_state_in_place
     = (Raises (KeyError_node "1.3"), mkOracle [] []).
Proof. repeat split; vm_compute; reflexivity. Qed.

(** C5: with the scene of [Sample.remote_first] on top of the stack (the
    third call of a run on that passage with created parents above the top;
    with them in place of the top the fourth call does the same) the call
    returns IMPLICIT, and the edge it removes from [edges_remaining] is the
    remote edge from the scene to its implicit participant. *)
Theorem C5_implicit_discharges_remote_edge :
  get_action false Sample.remote_call_oracle Sample.remote_call_state
  = (Returns (IMPLICIT "A" Sample.n_impl), Sample.remote_call_after)
  /\ remote Sample.e_scene_impl_remote = true
  /\ In Sample.e_scene_impl_remote (edges_remaining Sample.remote_call_oracle)
  /\ set_remove Edge_eq_dec Sample.e_scene_impl_remote
       (edges_remaining Sample.remote_call_oracle)
     = Some (edges_remaining Sample.remote_call_after).
Proof. vm_compute. repeat split; auto. Qed.

(** C9: with the second parent of the implicit node of
    [Sample.shared_implicit] on top of the stack (the eleventh call of a run
    on that passage with created parents above the top; with them in place
    of the top the ninth call does the same) the IMPLICIT generator yields
    the edge to the implicit node, whose ID is no longer in
    [nodes_remaining]; the edge is removed and removing the ID raises
    [KeyError]. *)
Theorem C9_implicit_removes_missing_id :
  unary_candidate (nodes_remaining Sample.second_parent_oracle)
    (incoming_remaining Sample.second_parent_oracle
       (state_node_of (Sample.orig_of Sample.shared_implicit_edges Sample.n_unit)))
    (outgoing_remaining Sample.second_parent_oracle
       (state_node_of (Sample.orig_of Sample.shared_implicit_edges Sample.n_unit)))
  = Some (U_IMPLICIT, Sample.e_unit_impl)
  /\ ~ In (ID (child Sample.e_unit_impl)) (nodes_remaining Sample.second_parent_oracle)
  /\ get_action false Sample.second_parent_oracle Sample.second_parent_state
     = (Raises (KeyError_node "1.3"), mkOracle [] [Sample.e_root_unit]).
Proof. vm_compute. repeat split; auto. Qed.

(** C6: in the same state the call raises although a stack-based rule,
    IMPLICIT, applies; the error is the [KeyError], not the one that
    carries the diagnostic state, and no action is returned. *)
Theorem C6_raises_while_rule_applies :
  let out := fst (get_action false Sample.second_parent_oracle
                    Sample.second_parent_state) in
  (exists s0 e,
     stack_top Sample.second_parent_state = Some s0
     /\ unary_candidate (nodes_remaining Sample.second_parent_oracle)
          (incoming_remaining Sample.second_parent_oracle s0)
          (outgoing_remaining Sample.second_parent_oracle s0)
        = Some (U_IMPLICIT, e))
  /\ out = Raises (KeyError_node "1.3")
  /\ (forall a, out <> Returns a)
  /\ (forall st nodes edges, out <> Raises (NoActionPossible st nodes edges)).
Proof.
  vm_compute. split; [|split; [reflexivity | split; intros; discriminate]].
  eexists. eexists. split; reflexivity.
Qed.

(** ** Independence of the iteration order *)









Section TwoOrders.

Variable cs : bool.
Variables o1 o2 : Oracle.
Variable st : State.
Hypothesis Pe : Permutation (edges_remaining o1) (edges_remaining o2).
Hypothesis Pn : Permutation (nodes_remaining o1) (nodes_remaining o2).
















End TwoOrders.







(** The exception is real: with the second unit of [Sample.two_implicit] on
    top (the ninth call of a run on that passage, a created parent taking
    the place of the top), the two iteration orders of the same two edges
    give IMPLICIT for the unit's own participant in one case and the
    [KeyError] for the shared one in the other. *)
Lemma sample_implicit_returns_or_raises :
  fst (Sample.at_call InPlaceOfTop Sample.two_implicit 8) = Sample.two_implicit_oracle
  /\ state (snd (Sample.at_call InPlaceOfTop Sample.two_implicit 8))
     = Sample.two_implicit_state
  /\ Permutation (edges_remaining Sample.two_implicit_oracle)
                 (edges_remaining Sample.two_implicit_oracle')
  /\ nodes_remaining Sample.two_implicit_oracle
     = nodes_remaining Sample.two_implicit_oracle'
  /\ fst (get_action false Sample.two_implicit_oracle Sample.two_implicit_state)
     = Raises (KeyError_node "1.3")
  /\ fst (get_action false Sample.two_implicit_oracle' Sample.two_implicit_state)
     = Returns (IMPLICIT "A" Sample.n_impl2).
Proof.
  split; [vm_compute; reflexivity|]. split; [vm_compute; reflexivity|].
  split; [apply perm_swap|]. repeat split; vm_compute; reflexivity.
Qed.


(** ** Replaying a run *)

Lemma firstn_In {A : Type} (n : nat) (l : list A) (x : A) :
  In x (firstn n l) -> In x l.
Proof.
  intros H. rewrite <- (firstn_skipn n l). apply in_or_app. now left.
Qed.

Lemma skipn_In {A : Type} (n : nat) (l : list A) (x : A) :
  In x (skipn n l) -> In x l.
Proof.
  intros H. rewrite <- (firstn_skipn n l). apply in_or_app. now right.
Qed.

Lemma removelast_In {A : Type} (l : list A) (x : A) :
  In x (removelast l) -> In x l.
Proof.
  intros H. destruct l as [|y l']; [assumption|].
  rewrite (app_removelast_last y (l := y :: l')) by discriminate.
  apply in_or_app. now left.
Qed.

Section Replay.

Variable place : Placement.
Variable passage : Passage.
Hypothesis Hwf : passage_wf passage.

Lemma new_state_node_ok (n : Node) : node_ok (new_state_node passage n).
Proof.
  unfold new_state_node, find_node, node_ok. simpl.
  destruct (find _ (passage_nodes passage)) as [o|] eqn:E; simpl.
  - apply find_some in E. destruct E as [Hin Hid]. apply String.eqb_eq in Hid.
    unfold passage_wf in Hwf. rewrite Forall_forall in Hwf.
    destruct (Hwf o Hin) as [Hi Ho]. rewrite Forall_forall in Hi, Ho.
    split; intros e He; [rewrite (Hi e He) | rewrite (Ho e He)]; assumption.
  - split; intros e [].
Qed.

Lemma state_node_of_ok (o : OrigNode) :
  In o (passage_nodes passage) -> node_ok (state_node_of o).
Proof.
  intros Hin. unfold passage_wf in Hwf. rewrite Forall_forall in Hwf.
  destruct (Hwf o Hin) as [Hi Ho]. rewrite Forall_forall in Hi, Ho.
  split; intros e He; simpl; [rewrite (Hi e He) | rewrite (Ho e He)]; reflexivity.
Qed.

Lemma fresh_ok : state_ok (state (fresh passage)).
Proof.
  unfold state_ok, fresh. simpl. constructor; [apply new_state_node_ok|].
  apply Forall_forall. intros s Hs. apply in_map_iff in Hs.
  destruct Hs as (o & <- & Ho). apply state_node_of_ok.
  unfold passage_nodes. apply in_or_app. now left.
Qed.

Lemma state_ok_incl (st st' : State) (extra : list StateNode) :
  state_ok st -> Forall node_ok extra ->
  incl (stack st' ++ buffer st') (extra ++ stack st ++ buffer st) ->
  state_ok st'.
Proof.
  unfold state_ok. rewrite !Forall_forall. intros H He Hi s Hs.
  apply Hi in Hs. apply in_app_or in Hs. destruct Hs as [Hs | Hs]; auto.
Qed.

Lemma rev_cons_In {A : Type} (l : list A) (x : A) (r : list A) :
  rev l = x :: r -> In x l.
Proof. intros H. apply in_rev. rewrite H. now left. Qed.

Lemma transition_ok (ps : Parser) (a : Action) :
  state_ok (state ps) -> state_ok (state (transition place passage ps a)).
Proof.
  intros Hok. destruct a as [ | t n | t n | | d | | t | t | t | t ]; simpl.
  - destruct (buffer (state ps)) as [|b0 rest] eqn:Hb; [assumption|].
    apply (state_ok_incl (state ps) _ []); [assumption | constructor |].
    simpl. rewrite Hb. intros x Hx. rewrite <- app_assoc in Hx. exact Hx.
  - destruct (rev (stack (state ps))) as [|s0 below]; [assumption|].
    apply (state_ok_incl (state ps) _ [new_state_node passage n]);
      [assumption | constructor; [apply new_state_node_ok | constructor] |].
    simpl. intros x Hx. rewrite <- app_assoc in Hx. apply in_app_or in Hx.
    destruct Hx as [Hx | [<- | Hx]].
    + right. apply in_or_app. left.
      destruct place; [now apply removelast_In | assumption].
    + now left.
    + right. apply in_or_app. now right.
  - destruct (rev (stack (state ps))); assumption.
  - apply (state_ok_incl (state ps) _ []); [assumption | constructor |].
    simpl. intros x Hx. apply in_app_or in Hx. apply in_or_app.
    destruct Hx as [Hx | Hx]; [left | now right].
    now apply removelast_In.
  - destruct (rev (stack (state ps))) as [|s0 below] eqn:Hrev; [assumption|].
    apply (state_ok_incl (state ps) _ []); [assumption | constructor |].
    simpl. unfold drop_top, top_n. intros x Hx.
    rewrite <- app_assoc in Hx. apply in_or_app.
    apply in_app_or in Hx. destruct Hx as [Hx | Hx].
    { left. apply firstn_In in Hx. now apply firstn_In in Hx. }
    apply in_app_or in Hx. destruct Hx as [[<- | []] | Hx].
    { left. now apply (rev_cons_In _ _ _ Hrev). }
    apply in_app_or in Hx. destruct Hx as [Hx | Hx]; [left | now right].
    apply skipn_In in Hx. now apply firstn_In in Hx.
  - assumption.
  - destruct (rev (stack (state ps))) as [|s0 [|s1 below]]; assumption.
  - destruct (rev (stack (state ps))) as [|s0 [|s1 below]]; assumption.
  - destruct (rev (stack (state ps))) as [|s0 [|s1 below]]; assumption.
  - destruct (rev (stack (state ps))) as [|s0 [|s1 below]]; assumption.
Qed.

End Replay.

(** A returned action with what it did to the two sets. *)
Lemma get_action_step (cs : bool) (self self' : Oracle) (st : State) (a : Action) :
  get_action cs self st = (Returns a, self') ->
  (discharges a = false /\ self' = self)
  \/ (exists s0 s1 p e edges',
        stack_top st = Some s0 /\ stack_second st = Some s1
        /\ binary_candidate (incoming_remaining self s0)
                            (outgoing_remaining self s0) s1 = Some (p, e)
        /\ a = binary_action p e
        /\ set_remove Edge_eq_dec e (edges_remaining self) = Some edges'
        /\ self' = mkOracle (nodes_remaining self) edges')
  \/ (exists s0 u e edges' nodes',
        stack_top st = Some s0
        /\ unary_candidate (nodes_remaining self) (incoming_remaining self s0)
                           (outgoing_remaining self s0) = Some (u, e)
        /\ a = unary_action u e
        /\ set_remove Edge_eq_dec e (edges_remaining self) = Some edges'
        /\ set_remove string_dec (ID (unary_node u e)) (nodes_remaining self)
           = Some nodes'
        /\ self' = mkOracle nodes' edges').
Proof.
  intros H. pose proof (get_action_branch cs self st) as B. rewrite H in B.
  inversion B as
      [He | Hne Hst Hr | s0 Hne Htop Hio | s0 Hne Htop Hio Hb
       | s0 s1 p e Hps Hsec Hbin Hr | s0 s1 Hps Hsec Hbin Hd
       | s0 u e Hpw Hu Hr | s0 Hpw Hu Hr]; subst.
  - left. now split.
  - left. destruct (no_rule_cases self st) as [[_ Hn] | [_ Hn]];
      rewrite Hn in Hr; [discriminate|]. injection Hr as <- <-. now split.
  - left. now split.
  - left. now split.
  - right. left.
    destruct (discharge_binary_cases self p e
                (binary_candidate_remaining _ _ _ _ _ Hbin)) as (edges' & Hrm & Hn).
    rewrite Hn in Hr. injection Hr as <- <-.
    exists s0, s1, p, e, edges'. repeat split; auto. apply Hps.
  - left. now split.
  - right. right.
    destruct (discharge_unary_cases self u e (unary_candidate_remaining _ _ _ _ Hu))
      as (edges' & Hrm & [(nodes' & Hnm & Hn) | (_ & Hn)]);
      rewrite Hn in Hr; [|discriminate]. injection Hr as <- <-.
    exists s0, u, e, edges', nodes'. repeat split; auto. apply Hpw.
  - left. destruct (no_rule_cases self st) as [[_ Hn] | [_ Hn]];
      rewrite Hn in Hr; [discriminate|]. injection Hr as <- <-. now split.
Qed.

(** What holds of remote edges: a call that discharges one returns the
    REMOTE variant of a binary action, unless it is the IMPLICIT path that
    discharges it; NODE never does. *)
Lemma remote_edge_discharged_by (cs : bool) (self self' : Oracle) (st : State)
    (a : Action) (e : Edge) :
  NoDup (edges_remaining self) ->
  get_action cs self st = (Returns a, self') ->
  In e (edges_remaining self) -> ~ In e (edges_remaining self') ->
  remote e = true ->
  a = LEFT_REMOTE (tag e) \/ a = RIGHT_REMOTE (tag e)
  \/ a = IMPLICIT (tag e) (child e).
Proof.
  intros Hnd H Hin Hout Hr.
  assert (Hsame : forall e' edges',
             set_remove Edge_eq_dec e' (edges_remaining self) = Some edges' ->
             ~ In e edges' -> e = e').
  { intros e' edges' Hrm Hn.
    destruct (Edge_eq_dec e e') as [|Hne]; [assumption|]. exfalso. apply Hn.
    now apply (set_remove_NoDup Edge_eq_dec e' _ _ Hnd Hrm). }
  destruct (get_action_step cs self self' st a H) as
      [[_ ->]
      | [(s0 & s1 & p & e' & edges' & _ & _ & _ & -> & Hrm & ->)
        | (s0 & u & e' & edges' & nodes' & _ & Hu & -> & Hrm & _ & ->)]].
  - contradiction.
  - rewrite <- (Hsame e' edges' Hrm Hout). unfold binary_action. rewrite Hr.
    destruct p; auto.
  - rewrite <- (Hsame e' edges' Hrm Hout) in *. apply unary_candidate_In in Hu.
    destruct u; [|auto]. destruct Hu as (_ & _ & Hu). congruence.
Qed.

Lemma stack_top_second_rev (st : State) (s0 s1 : StateNode) :
  stack_top st = Some s0 -> stack_second st = Some s1 ->
  exists rest, rev (stack st) = s0 :: s1 :: rest.
Proof.
  unfold stack_top, stack_second.
  destruct (rev (stack st)) as [|x [|y l]]; simpl; try discriminate.
  intros [= ->] [= ->]. eauto.
Qed.

Lemma transition_graph_plain (place : Placement) (passage : Passage) (ps : Parser)
    (a : Action) :
  discharges a = false -> graph (transition place passage ps a) = graph ps.
Proof.
  destruct a; simpl; try discriminate; intros _; try reflexivity.
  - now destruct (buffer (state ps)).
  - now destruct (rev (stack (state ps))).
Qed.

Lemma created_ids_plain (a : Action) :
  (forall u e, a <> unary_action u e) -> created_ids [a] = [].
Proof.
  intros H. destruct a; try reflexivity.
  - exfalso. apply (H U_NODE (mkEdge 0 n n t false)). reflexivity.
  - exfalso. apply (H U_IMPLICIT (mkEdge 0 n n t false)). reflexivity.
Qed.

Section ReplayInvariant.

Variable cs : bool.
Variable place : Placement.
Variable passage : Passage.
Hypothesis Hwf : passage_wf passage.

(** One call and the transition it causes: the edge that leaves
    [edges_remaining] enters the graph under construction, with the same
    endpoints, tag and remote flag; the node ID that leaves
    [nodes_remaining] is the ID of the node created. *)
Lemma step_invariant (self self' : Oracle) (ps : Parser) (a : Action) :
  state_ok (state ps) ->
  no_remote_implicit (edges_remaining self) ->
  get_action cs self (state ps) = (Returns a, self') ->
  Permutation
    (map built_key (graph (transition place passage ps a))
     ++ map gold_key (edges_remaining self'))
    (map built_key (graph ps) ++ map gold_key (edges_remaining self))
  /\ Permutation (created_ids [a] ++ nodes_remaining self') (nodes_remaining self).
Proof.
  intros Hok Hnri H.
  assert (Hnode : forall s0, stack_top (state ps) = Some s0 -> node_ok s0).
  { intros s0 Htop. apply stack_top_rev in Htop. destruct Htop as [below Hrev].
    unfold state_ok in Hok. rewrite Forall_forall in Hok. apply Hok.
    apply in_or_app. left. now apply (rev_cons_In _ _ _ Hrev). }
  destruct (get_action_step cs self self' (state ps) a H) as
      [[Hd ->]
      | [(s0 & s1 & p & e & edges' & Htop & Hsec & Hbin & -> & Hrm & ->)
        | (s0 & u & e & edges' & nodes' & Htop & Hu & -> & Hrm & Hnm & ->)]].
  - rewrite (transition_graph_plain place passage ps a Hd). split; [reflexivity|].
    rewrite created_ids_plain; [reflexivity|].
    intros u e ->. now rewrite unary_action_discharges in Hd.
  - destruct (stack_top_second_rev _ _ _ Htop Hsec) as [rest Hrev].
    destruct (Hnode s0 Htop) as [Hin_ok Hout_ok].
    apply binary_candidate_In in Hbin. cbn [edges_remaining nodes_remaining].
    split.
    + apply set_remove_perm in Hrm.
      rewrite (Permutation_map gold_key Hrm). cbn [map].
      rewrite <- Permutation_middle.
      assert (Hg : exists b, graph (transition place passage ps (binary_action p e))
                             = b :: graph ps /\ built_key b = gold_key e).
      { unfold binary_action.
        destruct p; destruct Hbin as [Hin Hid];
          [apply incoming_remaining_In in Hin | apply outgoing_remaining_In in Hin];
          destruct Hin as [_ Hin];
          destruct (remote e) eqn:Hr; simpl; rewrite Hrev;
          eexists; (split; [reflexivity|]);
          unfold built_key, gold_key; simpl; rewrite Hr, Hid;
          try rewrite (Hin_ok e Hin); try rewrite (Hout_ok e Hin); reflexivity. }
      destruct Hg as (b & -> & Hb). cbn [map app]. now rewrite Hb.
    + rewrite created_ids_plain; [reflexivity|].
      intros u e' Ha. unfold binary_action in Ha.
      destruct p, (remote e), u; discriminate.
  - apply stack_top_rev in Htop as Hrev. destruct Hrev as [below Hrev].
    destruct (Hnode s0 Htop) as [Hin_ok Hout_ok].
    apply unary_candidate_In in Hu. cbn [edges_remaining nodes_remaining].
    split.
    + apply set_remove_perm in Hrm.
      rewrite (Permutation_map gold_key Hrm). cbn [map].
      rewrite <- Permutation_middle.
      assert (Hg : exists b, graph (transition place passage ps (unary_action u e))
                             = b :: graph ps /\ built_key b = gold_key e).
      { destruct u; simpl; rewrite Hrev; eexists; (split; [reflexivity|]);
          unfold built_key, gold_key; simpl.
        - destruct Hu as (Hin & _ & Hr). apply incoming_remaining_In in Hin.
          destruct Hin as [_ Hin]. now rewrite Hr, (Hin_ok e Hin).
        - destruct Hu as (Hin & Himp). apply outgoing_remaining_In in Hin.
          destruct Hin as [Hrem Hin]. unfold child_implicit in Himp.
          now rewrite (Hout_ok e Hin), (Hnri e Hrem Himp). }
      destruct Hg as (b & -> & Hb). cbn [map app]. now rewrite Hb.
    + apply set_remove_perm in Hnm. rewrite Hnm. now destruct u.
Qed.


Lemma get_action_edges_incl (self self' : Oracle) (st : State) (a : Action) :
  get_action cs self st = (Returns a, self') ->
  incl (edges_remaining self') (edges_remaining self).
Proof.
  intros H. destruct (get_action_step cs self self' st a H) as
      [[_ ->]
      | [(s0 & s1 & p & e & edges' & _ & _ & _ & _ & Hrm & ->)
        | (s0 & u & e & edges' & nodes' & _ & _ & _ & Hrm & _ & ->)]].
  - apply incl_refl.
  - apply (set_remove_incl _ _ _ _ Hrm).
  - apply (set_remove_incl _ _ _ _ Hrm).
Qed.

Lemma returns_finish_no_edges (self : Oracle) (st : State) :
  fst (get_action cs self st) = Returns FINISH -> edges_remaining self = [].
Proof.
  intros H. apply get_action_returned in H.
  inversion H as
    [ He | | | | | s0 s1 p e Hps Hsec Hbin Ha | | s0 u e Hpw Hu Hin Ha ].
  - assumption.
  - pose proof (binary_action_not_plain p e) as (_ & _ & Hx & _). congruence.
  - destruct u; discriminate.
Qed.

Lemma run_finished_inv (fuel : nat) (self : Oracle) (ps : Parser)
    (actions : list Action) (final : Parser) :
  run cs place passage (S fuel) self ps = Finished actions final ->
  (actions = [FINISH] /\ final = ps
   /\ fst (get_action cs self (state ps)) = Returns FINISH)
  \/ (exists a self' actions',
        get_action cs self (state ps) = (Returns a, self')
        /\ run cs place passage fuel self' (transition place passage ps a)
           = Finished actions' final
        /\ actions = a :: actions').
Proof.
  simpl. destruct (get_action cs self (state ps)) as [[a|r] self']; [|discriminate].
  destruct a;
    try (destruct (run cs place passage fuel self' _) as [acts' fin| |] eqn:R;
         [|discriminate|discriminate]; intros [= <- <-]; right;
         do 3 eexists; split; [reflexivity|]; split; [exact R|reflexivity]).
  intros [= <- <-]. left. auto.
Qed.

Lemma created_ids_cons (a : Action) (actions : list Action) :
  created_ids (a :: actions) = created_ids [a] ++ created_ids actions.
Proof. now destruct a. Qed.

(** The invariant along a run that ends with FINISH. *)
Lemma run_invariant (fuel : nat) :
  forall (self : Oracle) (ps : Parser) (actions : list Action) (final : Parser),
    state_ok (state ps) ->
    no_remote_implicit (edges_remaining self) ->
    run cs place passage fuel self ps = Finished actions final ->
    Permutation (map built_key (graph final))
                (map built_key (graph ps) ++ map gold_key (edges_remaining self))
    /\ exists rest, Permutation (created_ids actions ++ rest) (nodes_remaining self).
Proof.
  induction fuel as [|fuel IH]; intros self ps actions final Hok Hnri Hrun;
    [discriminate|].
  destruct (run_finished_inv fuel self ps actions final Hrun) as
      [(-> & -> & Hfin) | (a & self' & actions' & Hcall & Hrest & ->)].
  - rewrite (returns_finish_no_edges self (state ps) Hfin). simpl.
    rewrite app_nil_r. split; [reflexivity|]. now exists (nodes_remaining self).
  - destruct (step_invariant self self' ps a Hok Hnri Hcall) as [Pg Pn].
    assert (Hnri' : no_remote_implicit (edges_remaining self')).
    { intros e He. apply Hnri. now apply (get_action_edges_incl _ _ _ _ Hcall). }
    destruct (IH self' (transition place passage ps a) actions' final
                (transition_ok place passage Hwf ps a Hok) Hnri' Hrest)
      as [Pg' (rest & Pn')].
    split; [now rewrite Pg'|]. exists rest.
    rewrite created_ids_cons, <- app_assoc, Pn'. exact Pn.
Qed.

End ReplayInvariant.

Lemma NoDup_list_remove {A : Type} (eq_dec : forall x y : A, {x = y} + {x <> y})
    (x : A) (l : list A) :
  NoDup l -> NoDup (remove eq_dec x l).
Proof.
  induction 1 as [|y l Hy Hl IH]; simpl; [constructor|].
  destruct (eq_dec x y); [assumption|]. constructor; [|assumption].
  intros Hin. apply in_remove in Hin. tauto.
Qed.

(** What a run that reaches FINISH has built: on a gold passage whose edge
    lists agree with the edges' endpoints and in which no remote edge
    points to an implicit node, the graph's edges are, under the map from a
    state node to the gold ID it stands for, exactly the gold edges, each
    once; the nodes the run creates stand for pairwise different gold
    non-terminals other than the root.  This holds for either placement of
    a created parent. *)
Theorem finished_run_rebuilds_gold (cs : bool) (place : Placement) (passage : Passage)
    (fuel : nat) (actions : list Action) (final : Parser) :
  passage_wf passage ->
  no_remote_implicit (gold_edges passage) ->
  run cs place passage fuel (Oracle_init passage) (fresh passage)
  = Finished actions final ->
  Permutation (map built_key (graph final)) (map gold_key (gold_edges passage))
  /\ NoDup (created_ids actions)
  /\ incl (created_ids actions) (nodes_remaining (Oracle_init passage))
  /\ ~ In ROOT_ID (created_ids actions).
Proof.
  intros Hwf Hnri Hrun.
  destruct (run_invariant cs place passage Hwf fuel (Oracle_init passage)
              (fresh passage) actions final (fresh_ok passage Hwf) Hnri Hrun)
    as [Pg (rest & Pn)].
  split; [exact Pg|].
  assert (Hnd : NoDup (nodes_remaining (Oracle_init passage))).
  { simpl. apply NoDup_list_remove, NoDup_nodup. }
  assert (Hincl : incl (created_ids actions) (nodes_remaining (Oracle_init passage))).
  { intros k Hk. apply (Permutation_in k Pn). apply in_or_app. now left. }
  split; [|split; [exact Hincl|]].
  - apply (Permutation_NoDup (Permutation_sym Pn)) in Hnd.
    now apply NoDup_app_remove_r in Hnd.
  - intros Hin. apply Hincl in Hin. simpl in Hin. now apply remove_In in Hin.
Qed.

(** The two placements on the projective sample: with the created unit in
    place of the top the run has no SWAP; with the unit above the top, the
    terminal it was created from stays between the unit and the root and
    has to be swapped away.  Both runs rebuild the gold edges. *)
Lemma sample_projective_runs :
  (exists final,
     run false InPlaceOfTop Sample.projective 10
       (Oracle_init Sample.projective) (fresh Sample.projective)
     = Finished [SHIFT; RIGHT_EDGE "F"; REDUCE; SHIFT;
                 NODE "Terminal" Sample.n_scene; SHIFT; RIGHT_EDGE "Terminal";
                 REDUCE; RIGHT_EDGE "H"; FINISH] final
     /\ Permutation (map built_key (graph final))
                    (map gold_key (gold_edges Sample.projective)))
  /\ (exists final,
        run false AboveTop Sample.projective 11
          (Oracle_init Sample.projective) (fresh Sample.projective)
        = Finished [SHIFT; RIGHT_EDGE "F"; REDUCE; SHIFT;
                    NODE "Terminal" Sample.n_scene; SHIFT; RIGHT_EDGE "Terminal";
                    REDUCE; SWAP None; RIGHT_EDGE "H"; FINISH] final
        /\ Permutation (map built_key (graph final))
                       (map gold_key (gold_edges Sample.projective))).
Proof.
  assert (Hwf : passage_wf Sample.projective)
    by (unfold passage_wf; vm_compute; repeat constructor).
  assert (Hnri : no_remote_implicit (gold_edges Sample.projective)).
  { intros e He _. vm_compute in He.
    repeat (destruct He as [<- | He]; [reflexivity|]). contradiction. }
  split; eexists; (split; [vm_compute; reflexivity|]).
  - eapply (finished_run_rebuilds_gold false InPlaceOfTop Sample.projective 10);
      [exact Hwf | exact Hnri | vm_compute; reflexivity].
  - eapply (finished_run_rebuilds_gold false AboveTop Sample.projective 11);
      [exact Hwf | exact Hnri | vm_compute; reflexivity].
Qed.


(** ** The theorems at concrete inputs *)

Lemma sample_one_scene_wf : passage_wf Sample.one_scene.
Proof. unfold passage_wf. vm_compute. repeat constructor. Qed.

Lemma finished_run_rebuilds_gold_witness :
  passage_wf Sample.one_scene
  /\ no_remote_implicit (gold_edges Sample.one_scene)
  /\ exists actions final,
       run false InPlaceOfTop Sample.one_scene 10 (Oracle_init Sample.one_scene)
           (fresh Sample.one_scene) = Finished actions final
       /\ Permutation (map built_key (graph final))
                      (map gold_key (gold_edges Sample.one_scene))
       /\ NoDup (created_ids actions)
       /\ incl (created_ids actions) (nodes_remaining (Oracle_init Sample.one_scene))
       /\ ~ In ROOT_ID (created_ids actions).
Proof.
  assert (Hnri : no_remote_implicit (gold_edges Sample.one_scene)).
  { intros e He. vm_compute in He.
    destruct He as [<- | [<- | [<- | []]]]; reflexivity. }
  split; [exact sample_one_scene_wf|]. split; [exact Hnri|].
  destruct (run false InPlaceOfTop Sample.one_scene 10 (Oracle_init Sample.one_scene)
              (fresh Sample.one_scene)) as [actions final| |] eqn:R.
  - exists actions, final. split; [reflexivity|].
    exact (finished_run_rebuilds_gold false InPlaceOfTop Sample.one_scene 10
             actions final sample_one_scene_wf Hnri R).
  - vm_compute in R. discriminate.
  - vm_compute in R. discriminate.
Defined.

Lemma C2_witness :
  get_action false Sample.linked_oracle Sample.linked_state
  = (Returns (NODE "LA" Sample.n_link1), Sample.linked_after)
  /\ (forall a, Returns (NODE "LA" Sample.n_link1) = Returns a -> discharges a = true ->
       exists e,
         In e (edges_remaining Sample.linked_oracle)
         /\ set_remove Edge_eq_dec e (edges_remaining Sample.linked_oracle)
            = Some (edges_remaining Sample.linked_after)
         /\ Permutation (edges_remaining Sample.linked_oracle)
                        (e :: edges_remaining Sample.linked_after)
         /\ List.length (edges_remaining Sample.linked_oracle)
            = S (List.length (edges_remaining Sample.linked_after))
         /\ (NoDup (edges_remaining Sample.linked_oracle) ->
             forall x, In x (edges_remaining Sample.linked_after) <->
                       In x (edges_remaining Sample.linked_oracle) /\ x <> e)
         /\ ((exists p, a = binary_action p e) \/ (exists u, a = unary_action u e)))
  /\ (forall a, Returns (NODE "LA" Sample.n_link1) = Returns a -> discharges a = false ->
        edges_remaining Sample.linked_after = edges_remaining Sample.linked_oracle)
  /\ incl (edges_remaining Sample.linked_after) (edges_remaining Sample.linked_oracle)
  /\ incl (nodes_remaining Sample.linked_after) (nodes_remaining Sample.linked_oracle)
  /\ List.length (edges_remaining Sample.linked_after)
     <= List.length (edges_remaining Sample.linked_oracle)
  /\ List.length (nodes_remaining Sample.linked_after)
     <= List.length (nodes_remaining Sample.linked_oracle).
Proof.
  split; [reflexivity|].
  apply (C2_remaining_sets_shrink false Sample.linked_oracle Sample.linked_after
           Sample.linked_state (Returns (NODE "LA" Sample.n_link1))).
  reflexivity.
Defined.

Lemma C3_witness :
  (forall s0, stack_top Sample.done_terminal_state = Some s0 ->
     incident_lists_agree (orig_node s0) (edges_remaining Sample.root_edge_left))
  /\ (fst (get_action false Sample.root_edge_left Sample.done_terminal_state)
        = Returns REDUCE <->
      (edges_remaining Sample.root_edge_left <> []
       /\ exists s0, stack_top Sample.done_terminal_state = Some s0
            /\ forall e, In e (edges_remaining Sample.root_edge_left) ->
                 parent e <> node (orig_node s0) /\ child e <> node (orig_node s0))).
Proof.
  assert (H : forall s0, stack_top Sample.done_terminal_state = Some s0 ->
                incident_lists_agree (orig_node s0)
                  (edges_remaining Sample.root_edge_left)).
  { intros s0 Htop. vm_compute in Htop. injection Htop as <-.
    intros e He. vm_compute in He. destruct He as [<- | []].
    split; split; intros Hx; vm_compute in Hx;
      try discriminate Hx; try contradiction;
      destruct Hx as [Hx | Hx]; try discriminate Hx; contradiction. }
  split; [exact H|].
  exact (C3_reduce_iff false Sample.root_edge_left Sample.done_terminal_state H).
Defined.

Lemma C4_witness :
  fst (get_action true Sample.root_edge_left Sample.deep_root_state)
  = Returns (SWAP (Some 2))
  /\ exists s0, stack_top Sample.deep_root_state = Some s0 /\
       let related := related_of Sample.root_edge_left s0 in
       let D := swap_distance_of true (stack Sample.deep_root_state) related in
       Some 2 = (if true then Some D else None)
       /\ 1 <= D
       /\ (forall k, k < D ->
             k + 1 < List.length (stack Sample.deep_root_state)
             /\ incl related (map node_id (stack_below (stack Sample.deep_root_state) k)))
       /\ (true = false -> D = 1)
       /\ (true = true ->
           forall k, k + 1 < List.length (stack Sample.deep_root_state) ->
                     incl related
                       (map node_id (stack_below (stack Sample.deep_root_state) k)) ->
                     k < D)
       /\ (true = true ->
           ~ (D + 1 < List.length (stack Sample.deep_root_state)
              /\ incl related
                   (map node_id (stack_below (stack Sample.deep_root_state) D)))).
Proof.
  split; [reflexivity|].
  apply (C4_swap_distance true Sample.root_edge_left Sample.deep_root_state (Some 2)).
  reflexivity.
Defined.

Lemma C7_witness :
  stack_top Sample.terminal_ahead_state = Some Sample.s_scene
  /\ stack_second Sample.terminal_ahead_state = Some Sample.s_root
  /\ buffer Sample.terminal_ahead_state = [Sample.s_t1]
  /\ In Sample.e_scene_t1 (edges_remaining Sample.scene_edges_left)
  /\ In Sample.e_scene_t1 (outgoing (orig_node Sample.s_scene))
  /\ node_id Sample.s_t1 = ID (child Sample.e_scene_t1)
  /\ binary_candidate (incoming_remaining Sample.scene_edges_left Sample.s_scene)
       (outgoing_remaining Sample.scene_edges_left Sample.s_scene) Sample.s_root
     = Some (RIGHT, Sample.e_root_scene)
  /\ unary_candidate (nodes_remaining Sample.scene_edges_left)
       (incoming_remaining Sample.scene_edges_left Sample.s_scene)
       (outgoing_remaining Sample.scene_edges_left Sample.s_scene)
     = Some (U_IMPLICIT, Sample.e_scene_impl)
  /\ get_action false Sample.scene_edges_left Sample.terminal_ahead_state
     = (Returns SHIFT, Sample.scene_edges_left).
Proof.
  assert (Hin : In Sample.e_scene_t1 (outgoing (orig_node Sample.s_scene))).
  { vm_compute. left. reflexivity. }
  assert (He : In Sample.e_scene_t1 (edges_remaining Sample.scene_edges_left)).
  { simpl. right. now left. }
  repeat (split; [first [reflexivity | exact He | exact Hin]|]).
  apply (C7_shift_preferred false Sample.scene_edges_left Sample.terminal_ahead_state
           Sample.s_scene Sample.s_t1 [] Sample.e_scene_t1).
  - reflexivity.
  - reflexivity.
  - exact He.
  - right. split; [exact Hin | reflexivity].
Defined.

Lemma C10_witness :
  stack Sample.empty_stack_state = []
  /\ edges_remaining Sample.root_edge_left <> []
  /\ buffer Sample.empty_stack_state <> []
  /\ get_action false Sample.root_edge_left Sample.empty_stack_state
     = (Returns SHIFT, Sample.root_edge_left).
Proof.
  assert (He : edges_remaining Sample.root_edge_left <> []) by discriminate.
  assert (Hb : buffer Sample.empty_stack_state <> []) by discriminate.
  split; [reflexivity|]. split; [exact He|]. split; [exact Hb|].
  exact (proj1 (C10_empty_stack_shift false Sample.root_edge_left
                  Sample.empty_stack_state) eq_refl He Hb).
Defined.



(** * Further properties of the oracle *)

(** ** Single calls *)

(** X1: FINISH is returned exactly when no edge remains, whatever the parser
    state holds, and the call then leaves the oracle as it was. *)
Theorem finish_iff_no_edges (cs : bool) (self : Oracle) (st : State) :
  (fst (get_action cs self st) = Returns FINISH <-> edges_remaining self = [])
  /\ (edges_remaining self = [] -> get_action cs self st = (Returns FINISH, self)).
Proof.
  split; [split|].
  - intros H. apply get_action_returned in H.
    inversion H as
      [ He | | | | | s0 s1 p e Hps Hsec Hbin Ha | | s0 u e Hpw Hu Hin Ha ].
    + assumption.
    + pose proof (binary_action_not_plain p e) as (_ & _ & Hx & _). congruence.
    + destruct u; discriminate.
  - intros He. now rewrite (branch_get_action _ _ _ _ (Br_finish cs self st He)).
  - intros He. apply branch_get_action. now apply Br_finish.
Qed.

(** X2: SHIFT is returned only when the buffer holds a node to shift, and the
    call leaves both sets as they were. *)
Theorem shift_needs_buffer (cs : bool) (self self' : Oracle) (st : State) :
  get_action cs self st = (Returns SHIFT, self') ->
  buffer st <> [] /\ self' = self.
Proof.
  intros H. split.
  - assert (R : Returned cs self st SHIFT)
      by (apply get_action_returned; now rewrite H).
    inversion R as
      [ | | s0 Hne Htop Hio Hb | Hne Hst Hb | s0 Hpw Hu Hb
        | s0 s1 p e Hps Hsec Hbin Ha | | s0 u e Hpw Hu Hin Ha ].
    + unfold buffer_front_related in Hb. destruct (buffer st); [discriminate|].
      discriminate.
    + assumption.
    + assumption.
    + pose proof (binary_action_not_plain p e) as (_ & Hx & _). congruence.
    + destruct u; discriminate.
  - destruct (get_action_step cs self self' st SHIFT H) as
      [[_ ->]
      | [(s0 & s1 & p & e & edges' & _ & _ & _ & Ha & _ & _)
        | (s0 & u & e & edges' & nodes' & _ & _ & Ha & _ & _ & _)]].
    + reflexivity.
    + pose proof (binary_action_not_plain p e) as (_ & Hx & _). congruence.
    + destruct u; discriminate.
Qed.

Lemma is_binary_binary_action (p : Prefix) (e : Edge) : is_binary (binary_action p e) = true.
Proof. unfold binary_action. now destruct p, (remote e). Qed.

Lemma is_binary_unary_action (u : Unary) (e : Edge) : is_binary (unary_action u e) = false.
Proof. now destruct u. Qed.

Lemma is_binary_discharges (a : Action) : is_binary a = true -> discharges a = true.
Proof. now destruct a. Qed.

(** X3: A binary edge action stands for a remaining gold edge between the two
    topmost stack nodes: RIGHT for an edge from the second node to the top,
    LEFT for an edge from the top to the second node; the action carries
    the edge's tag, its REMOTE variant is used exactly for a remote edge,
    and the edge is the one removed from [edges_remaining]. *)
Theorem binary_action_sound (cs : bool) (self self' : Oracle) (st : State) (a : Action) :
  get_action cs self st = (Returns a, self') ->
  is_binary a = true ->
  exists s0 s1 p e,
    stack_top st = Some s0 /\ stack_second st = Some s1
    /\ In e (edges_remaining self)
    /\ match p with
       | RIGHT => In e (incoming (orig_node s0)) /\ ID (parent e) = node_id s1
                  /\ a = (if remote e then RIGHT_REMOTE (tag e) else RIGHT_EDGE (tag e))
       | LEFT => In e (outgoing (orig_node s0)) /\ ID (child e) = node_id s1
                 /\ a = (if remote e then LEFT_REMOTE (tag e) else LEFT_EDGE (tag e))
       end
    /\ set_remove Edge_eq_dec e (edges_remaining self) = Some (edges_remaining self')
    /\ nodes_remaining self' = nodes_remaining self.
Proof.
  intros H Hb.
  destruct (get_action_step cs self self' st a H) as
      [[Hd _]
      | [(s0 & s1 & p & e & edges' & Htop & Hsec & Hbin & -> & Hrm & ->)
        | (s0 & u & e & edges' & nodes' & _ & _ & -> & _ & _ & _)]].
  - apply is_binary_discharges in Hb. congruence.
  - exists s0, s1, p, e. pose proof (binary_candidate_remaining _ _ _ _ _ Hbin) as Hin.
    apply binary_candidate_In in Hbin.
    repeat (split; [assumption|]). split; [|split; [assumption|reflexivity]].
    unfold binary_action.
    destruct p; destruct Hbin as [Hc Hid];
      [apply incoming_remaining_In in Hc | apply outgoing_remaining_In in Hc];
      destruct Hc as [_ Hc]; repeat split; auto; now destruct (remote e).
  - now rewrite is_binary_unary_action in Hb.
Qed.

(** X4: A NODE action stands for a remaining, non-remote gold edge into the top
    of the stack whose parent is still in [nodes_remaining]: it carries the
    edge's tag and parent, and the call removes the edge and the parent's
    ID from the two sets. *)
Theorem node_action_sound (cs : bool) (self self' : Oracle) (st : State)
    (t : string) (n : Node) :
  get_action cs self st = (Returns (NODE t n), self') ->
  exists s0 e,
    stack_top st = Some s0
    /\ In e (edges_remaining self) /\ In e (incoming (orig_node s0))
    /\ parent e = n /\ tag e = t /\ remote e = false
    /\ In (ID n) (nodes_remaining self)
    /\ set_remove Edge_eq_dec e (edges_remaining self) = Some (edges_remaining self')
    /\ set_remove string_dec (ID n) (nodes_remaining self)
       = Some (nodes_remaining self').
Proof.
  intros H.
  destruct (get_action_step cs self self' st _ H) as
      [[Hd _]
      | [(s0 & s1 & p & e & edges' & _ & _ & _ & Ha & _ & _)
        | (s0 & u & e & edges' & nodes' & Htop & Hu & Ha & Hrm & Hnm & ->)]].
  - discriminate.
  - pose proof (binary_action_not_plain p e) as (_ & _ & _ & _ & Hx & _).
    exfalso. apply (Hx t n). now symmetry.
  - destruct u; [|discriminate]. injection Ha as -> ->.
    pose proof (unary_candidate_remaining _ _ _ _ Hu) as Hin.
    apply unary_candidate_In in Hu. destruct Hu as (Hc & Hn & Hr).
    apply incoming_remaining_In in Hc. destruct Hc as [_ Hc].
    exists s0, e. repeat (split; [assumption || reflexivity|]). assumption.
Qed.

(** X5: An IMPLICIT action stands for a remaining gold edge from the top of the
    stack to a node marked implicit: it carries the edge's tag and child,
    and the call removes the edge and the child's ID from the two sets. *)
Theorem implicit_action_sound (cs : bool) (self self' : Oracle) (st : State)
    (t : string) (n : Node) :
  get_action cs self st = (Returns (IMPLICIT t n), self') ->
  exists s0 e,
    stack_top st = Some s0
    /\ In e (edges_remaining self) /\ In e (outgoing (orig_node s0))
    /\ child e = n /\ tag e = t /\ implicit n = true
    /\ In (ID n) (nodes_remaining self)
    /\ set_remove Edge_eq_dec e (edges_remaining self) = Some (edges_remaining self')
    /\ set_remove string_dec (ID n) (nodes_remaining self)
       = Some (nodes_remaining self').
Proof.
  intros H.
  destruct (get_action_step cs self self' st _ H) as
      [[Hd _]
      | [(s0 & s1 & p & e & edges' & _ & _ & _ & Ha & _ & _)
        | (s0 & u & e & edges' & nodes' & Htop & Hu & Ha & Hrm & Hnm & ->)]].
  - discriminate.
  - pose proof (binary_action_not_plain p e) as (_ & _ & _ & _ & _ & Hx).
    exfalso. apply (Hx t n). now symmetry.
  - destruct u; [discriminate|]. injection Ha as -> ->.
    pose proof (unary_candidate_remaining _ _ _ _ Hu) as Hin.
    apply unary_candidate_In in Hu. destruct Hu as (Hc & Himp).
    apply outgoing_remaining_In in Hc. destruct Hc as [_ Hc].
    assert (Hn : In (ID (child e)) (nodes_remaining self)).
    { simpl in Hnm. apply (set_remove_perm string_dec) in Hnm.
      apply (Permutation_in _ (Permutation_sym Hnm)). now left. }
    exists s0, e. repeat (split; [assumption || reflexivity|]). assumption.
Qed.

Lemma related_of_nonempty (self : Oracle) (s0 : StateNode) :
  incoming_remaining self s0 ++ outgoing_remaining self s0 <> [] ->
  related_of self s0 <> [].
Proof.
  unfold related_of, related_ids. intros H E. apply app_eq_nil in E.
  destruct E as [Eo Ei]. apply map_eq_nil in Eo, Ei. rewrite Eo, Ei in H.
  now apply H.
Qed.

(** X6: A binary edge action needs two nodes on the stack.  SWAP needs three:
    its distance is at least 1 and at least one node stays below the
    nodes it moves, that is [distance + 2 <= len(stack)]. *)
Theorem binary_and_swap_need_depth (cs : bool) (self : Oracle) (st : State) (a : Action) :
  fst (get_action cs self st) = Returns a ->
  (is_binary a = true -> 2 <= List.length (stack st))
  /\ (forall d, a = SWAP d ->
        3 <= List.length (stack st)
        /\ forall D, d = Some D -> 1 <= D /\ D + 2 <= List.length (stack st)).
Proof.
  intros H. apply get_action_returned in H.
  assert (Hlen2 : forall s0 s1, stack_top st = Some s0 -> stack_second st = Some s1 ->
                    2 <= List.length (stack st)).
  { intros s0 s1 Htop Hsec. destruct (stack_top_second_rev _ _ _ Htop Hsec) as [rest Hrev].
    rewrite <- length_rev, Hrev. simpl. lia. }
  destruct H as
      [He | s0 Hne Htop Hio | s0 Hne Htop Hio Hb | Hne Hst Hb | s0 Hpw Hu Hb
       | s0 s1 p e Hps Hsec Hbin | s0 s1 Hps Hsec Hbin Hd | s0 u e Hpw Hu Hin];
    try (split; [discriminate | intros d; discriminate]).
  - split; [intros _; apply (Hlen2 s0 s1); [apply Hps | assumption]|].
    intros d Ha. destruct (swap_action_not_discharge p U_NODE e d) as [Hx _]. congruence.
  - split; [discriminate|]. intros d Hd'.
    set (D := swap_distance_of cs (stack st) (related_of self s0)) in *.
    assert (Hc : swap_cond cs (stack st) (related_of self s0) (D - 1) = true).
    { apply (swap_loop_passed cs (stack st) (related_of self s0)
               (List.length (stack st)) 0).
      fold (swap_distance_of cs (stack st) (related_of self s0)). fold D. lia. }
    apply swap_cond_true in Hc. destruct Hc as (Hl & _ & Hsub).
    assert (Hbelow : stack_below (stack st) (D - 1) <> []).
    { intros E. rewrite E in Hsub. simpl in Hsub.
      destruct (related_of self s0) as [|k r] eqn:Er.
      - apply (related_of_nonempty self s0); [apply Hps | assumption].
      - apply (Hsub k). now left. }
    assert (Hd2 : D + 2 <= List.length (stack st)).
    { unfold stack_below in Hbelow.
      destruct (Nat.le_gt_cases (List.length (stack st)) (D - 1 + 2)) as [Hle|]; [|lia].
      exfalso. apply Hbelow.
      replace (List.length (stack st) - (D - 1 + 2)) with 0 by lia. reflexivity. }
    split; [lia|]. intros D' HD'. injection Hd' as Hd'.
    destruct cs; [|congruence]. rewrite HD' in Hd'. injection Hd' as <-. lia.
  - split; [now rewrite is_binary_unary_action|].
    intros d Ha. destruct (swap_action_not_discharge RIGHT u e d) as [_ Hx]. congruence.
Qed.

(** X7: [nodes_remaining] loses exactly the ID of the created node on a NODE or
    IMPLICIT action and is left as it was by every other returned action. *)
Theorem nodes_remaining_frame (cs : bool) (self self' : Oracle) (st : State) (a : Action) :
  get_action cs self st = (Returns a, self') ->
  (forall t n, a = NODE t n \/ a = IMPLICIT t n ->
     In (ID n) (nodes_remaining self)
     /\ set_remove string_dec (ID n) (nodes_remaining self)
        = Some (nodes_remaining self')
     /\ List.length (nodes_remaining self) = S (List.length (nodes_remaining self'))
     /\ (NoDup (nodes_remaining self) -> ~ In (ID n) (nodes_remaining self')))
  /\ ((forall t n, a <> NODE t n /\ a <> IMPLICIT t n) ->
      nodes_remaining self' = nodes_remaining self).
Proof.
  intros H.
  destruct (get_action_step cs self self' st a H) as
      [[Hd ->]
      | [(s0 & s1 & p & e & edges' & _ & _ & _ & -> & _ & ->)
        | (s0 & u & e & edges' & nodes' & _ & _ & -> & _ & Hnm & ->)]].
  - split; [|reflexivity]. intros t n [-> | ->]; discriminate.
  - split; [|reflexivity]. intros t n [Ha | Ha];
      pose proof (binary_action_not_plain p e) as (_ & _ & _ & _ & Hx & Hy);
      [now apply Hx in Ha | now apply Hy in Ha].
  - split.
    + intros t n Ha.
      assert (Hn : ID n = ID (unary_node u e)).
      { destruct u, Ha as [Ha | Ha]; try discriminate; now injection Ha as _ <-. }
      rewrite Hn. cbn [nodes_remaining]. pose proof (set_remove_perm _ _ _ _ Hnm) as P.
      split; [|split; [assumption|split]].
      * apply (Permutation_in _ (Permutation_sym P)). now left.
      * now apply Permutation_length in P.
      * intros Hnd Hin.
        apply (set_remove_NoDup string_dec _ _ _ Hnd Hnm) in Hin. now apply Hin.
    + intros Hno. exfalso. destruct u.
      * destruct (Hno (tag e) (parent e)) as [Hx _]. now apply Hx.
      * destruct (Hno (tag e) (child e)) as [_ Hx]. now apply Hx.
Qed.

Lemma swap_distance_zero (cs : bool) (stk : list StateNode) (related : list string) :
  swap_distance_of cs stk related = 0 <-> swap_cond cs stk related 0 = false.
Proof.
  unfold swap_distance_of. destruct stk as [|s stk']; simpl.
  - split; [|reflexivity]. intros _. unfold swap_cond. reflexivity.
  - destruct (swap_cond cs (s :: stk') related 0) eqn:E.
    + split; [|discriminate]. intros H.
      pose proof (swap_loop_passed cs (s :: stk') related (List.length stk') 1 0) as P.
      assert (Hge : forall fuel d, d <= swap_loop cs fuel (s :: stk') related d).
      { induction fuel as [|fuel IH]; intros d; simpl; [lia|].
        destruct (swap_cond cs (s :: stk') related d); [|lia].
        specialize (IH (d + 1)). lia. }
      specialize (Hge (List.length stk') 1). simpl in H. lia.
    + tauto.
Qed.

Lemma swap_cond_zero_any_mode (stk : list StateNode) (related : list string) :
  swap_cond true stk related 0 = swap_cond false stk related 0.
Proof. unfold swap_cond. reflexivity. Qed.

Lemma past_swap_any_mode (self : Oracle) (st : State) (s0 : StateNode) :
  past_swap false self st s0 -> past_swap true self st s0.
Proof.
  intros [Hps Hsw]. split; [assumption|].
  destruct Hsw as [Hn | (s1 & Hsec & Hbin & Hd)]; [now left|].
  right. exists s1. repeat split; auto.
  apply swap_distance_zero. rewrite swap_cond_zero_any_mode.
  now apply swap_distance_zero.
Qed.

(** X8: The compound-swap setting changes nothing but the distance a SWAP
    carries: when the call without compound swap returns SWAP (with no
    distance), the call with it returns SWAP with a distance of at least 1;
    in every other case the two calls have the same outcome and leave the
    same sets. *)
Theorem compound_swap_only_changes_distance (self : Oracle) (st : State) :
  match fst (get_action false self st) with
  | Returns (SWAP d) =>
      d = None
      /\ snd (get_action false self st) = self
      /\ exists D, 1 <= D /\ get_action true self st = (Returns (SWAP (Some D)), self)
  | _ => get_action true self st = get_action false self st
  end.
Proof.
  destruct (get_action_branch false self st) as
      [He | Hne Hst | s0 Hne Htop Hio | s0 Hne Htop Hio Hb
       | s0 s1 p e Hps Hsec Hbin | s0 s1 Hps Hsec Hbin Hd
       | s0 u e Hpw Hu | s0 Hpw Hu].
  - simpl. apply branch_get_action. now apply Br_finish.
  - assert (E : get_action true self st = no_rule self st)
      by (apply branch_get_action; now apply Br_empty_stack).
    destruct (no_rule_cases self st) as [[_ Hn] | [_ Hn]]; rewrite Hn in *; exact E.
  - simpl. apply branch_get_action. now apply (Br_reduce _ _ _ s0).
  - simpl. apply branch_get_action. now apply (Br_shift _ _ _ s0).
  - assert (E : get_action true self st = discharge_binary self p e)
      by (apply branch_get_action; now apply (Br_binary _ _ _ s0 s1)).
    destruct (discharge_binary_cases self p e (binary_candidate_remaining _ _ _ _ _ Hbin))
      as (edges' & _ & Hn).
    rewrite Hn in *. cbn [fst].
    unfold binary_action in *. destruct p, (remote e); exact E.
  - cbn [fst snd]. split; [reflexivity|]. split; [reflexivity|].
    assert (Hd' : swap_distance_of true (stack st) (related_of self s0) <> 0).
    { intros H0. apply Hd. apply swap_distance_zero.
      rewrite <- swap_cond_zero_any_mode. now apply swap_distance_zero. }
    exists (swap_distance_of true (stack st) (related_of self s0)). split; [lia|].
    apply (branch_get_action true self st _ (Br_swap true self st s0 s1 Hps Hsec Hbin Hd')).
  - assert (E : get_action true self st = discharge_unary self u e)
      by (apply branch_get_action; apply (Br_unary _ _ _ s0);
          [now apply past_swap_any_mode | assumption]).
    destruct (discharge_unary_cases self u e (unary_candidate_remaining _ _ _ _ Hu))
      as (edges' & _ & [(nodes' & _ & Hn) | (_ & Hn)]); rewrite Hn in *; cbn [fst].
    + destruct u; exact E.
    + exact E.
  - assert (E : get_action true self st = no_rule self st)
      by (apply branch_get_action; apply (Br_no_rule _ _ _ s0);
          [now apply past_swap_any_mode | assumption]).
    destruct (no_rule_cases self st) as [[_ Hn] | [_ Hn]]; rewrite Hn in *; exact E.
Qed.

(** X9: With a node left in the buffer a call returns an action, provided that
    every implicit child of a remaining edge is still in [nodes_remaining];
    without that proviso the removal in the IMPLICIT path can raise. *)
Theorem returns_action_when_buffer_nonempty (cs : bool) (self : Oracle) (st : State) :
  buffer st <> [] ->
  (forall e, In e (edges_remaining self) -> implicit (child e) = true ->
             In (ID (child e)) (nodes_remaining self)) ->
  exists a, fst (get_action cs self st) = Returns a.
Proof.
  intros Hb Himp. destruct (fst (get_action cs self st)) as [a|r] eqn:E; [eauto|].
  exfalso. apply get_action_raised in E.
  destruct E as [Hne Hst Hb' | s0 Hpw Hu Hb' | s0 e Hpw Hu Hnin];
    try contradiction.
  apply Hnin. pose proof (unary_candidate_remaining _ _ _ _ Hu) as Hin.
  apply unary_candidate_In in Hu. destruct Hu as [_ Hi]. now apply Himp.
Qed.

(** X10: The error "No action is possible" is raised exactly when edges remain,
    the buffer is empty and either the stack is empty or the call got past
    the REDUCE, binary and swap checks and found no unary candidate; it
    carries the parser state and the two sets as they are, and the oracle
    is left unchanged. *)
Theorem no_action_error_iff (cs : bool) (self : Oracle) (st st' : State)
    (nodes : list string) (edges : list Edge) :
  (fst (get_action cs self st) = Raises (NoActionPossible st' nodes edges) <->
   st' = st /\ nodes = nodes_remaining self /\ edges = edges_remaining self
   /\ edges_remaining self <> [] /\ buffer st = []
   /\ (stack st = []
       \/ exists s0, past_swap cs self st s0
            /\ unary_candidate (nodes_remaining self) (incoming_remaining self s0)
                 (outgoing_remaining self s0) = None))
  /\ (fst (get_action cs self st) = Raises (NoActionPossible st' nodes edges) ->
      snd (get_action cs self st) = self).
Proof.
  split; [rewrite get_action_raised; split|].
  - intros R. inversion R as [Hne Hst Hb | s0 Hpw Hu Hb | ]; subst.
    + repeat split; auto.
    + repeat split; auto; [apply Hpw | right; eauto].
  - intros (H1 & H2 & H3 & Hne & Hb & [Hst | (s0 & Hpw & Hu)]);
      subst st' nodes edges.
    + now apply Rai_empty_stack.
    + now apply (Rai_no_rule _ _ _ s0).
  - intros H. apply get_action_raised in H.
    inversion H as [Hne Hst Hb | s0 Hpw Hu Hb | ]; subst.
    + rewrite (branch_get_action _ _ _ _ (Br_empty_stack cs self _ Hne Hst)).
      destruct (no_rule_cases self st') as [[_ ->] | [_ ->]]; reflexivity.
    + rewrite (branch_get_action _ _ _ _ (Br_no_rule cs self _ s0 Hpw Hu)).
      destruct (no_rule_cases self st') as [[_ ->] | [_ ->]]; reflexivity.
Qed.

(** X11: When a remaining edge joins the two topmost stack nodes and the SHIFT
    preference does not apply, the call returns a binary edge action, never
    SWAP, NODE or IMPLICIT; if some such edge runs from the second node to
    the top, the action is a RIGHT one even when an edge in the other
    direction remains as well. *)
Theorem binary_edge_preferred (cs : bool) (self : Oracle) (st : State)
    (s0 s1 : StateNode) (e : Edge) :
  stack_top st = Some s0 -> stack_second st = Some s1 ->
  buffer_front_related st (related_of self s0) = false ->
  In e (edges_remaining self) ->
  (In e (incoming (orig_node s0)) /\ ID (parent e) = node_id s1)
  \/ (In e (outgoing (orig_node s0)) /\ ID (child e) = node_id s1) ->
  exists p e',
    fst (get_action cs self st) = Returns (binary_action p e')
    /\ In e' (edges_remaining self)
    /\ (In e (incoming (orig_node s0)) /\ ID (parent e) = node_id s1 -> p = RIGHT).
Proof.
  intros Htop Hsec Hb He Hdir.
  assert (Hps : past_shift self st s0).
  { repeat split; auto.
    - intros E. rewrite E in He. contradiction.
    - intros E. apply app_eq_nil in E. destruct E as [Ei Eo].
      destruct Hdir as [[Hi _] | [Ho _]].
      + assert (Hin : In e (incoming_remaining self s0))
          by (apply incoming_remaining_In; auto).
        rewrite Ei in Hin. contradiction.
      + assert (Hin : In e (outgoing_remaining self s0))
          by (apply outgoing_remaining_In; auto).
        rewrite Eo in Hin. contradiction. }
  assert (Hcand : exists p e',
             binary_candidate (incoming_remaining self s0) (outgoing_remaining self s0) s1
             = Some (p, e')
             /\ (In e (incoming (orig_node s0)) /\ ID (parent e) = node_id s1 -> p = RIGHT)).
  { unfold binary_candidate.
    destruct (find (parent_is s1) (incoming_remaining self s0)) as [e1|] eqn:E1.
    - exists RIGHT, e1. now split.
    - destruct (find (child_is s1) (outgoing_remaining self s0)) as [e2|] eqn:E2.
      + exists LEFT, e2. split; [reflexivity|]. intros [Hi Hid]. exfalso.
        apply find_none with (x := e) in E1.
        * unfold parent_is in E1. rewrite Hid, String.eqb_refl in E1. discriminate.
        * apply incoming_remaining_In; auto.
      + exfalso. destruct Hdir as [[Hi Hid] | [Ho Hid]].
        * apply find_none with (x := e) in E1.
          -- unfold parent_is in E1. rewrite Hid, String.eqb_refl in E1. discriminate.
          -- apply incoming_remaining_In; auto.
        * apply find_none with (x := e) in E2.
          -- unfold child_is in E2. rewrite Hid, String.eqb_refl in E2. discriminate.
          -- apply outgoing_remaining_In; auto. }
  destruct Hcand as (p & e' & Hbin & Hright). exists p, e'.
  pose proof (binary_candidate_remaining _ _ _ _ _ Hbin) as Hin.
  split; [|split; assumption].
  rewrite (branch_get_action _ _ _ _ (Br_binary cs self st s0 s1 p e' Hps Hsec Hbin)).
  destruct (discharge_binary_cases self p e' Hin) as (edges' & _ & ->). reflexivity.
Qed.

(** ** [Oracle.__init__] *)

Lemma Oracle_init_nodes_In (passage : Passage) (k : string) :
  In k (nodes_remaining (Oracle_init passage)) <->
  k <> ROOT_ID /\ exists o, In o (layer1_all passage) /\ ID (node o) = k.
Proof.
  simpl. split.
  - intros H. apply in_remove in H. destruct H as [H Hne]. split; [assumption|].
    apply nodup_In, in_map_iff in H. destruct H as (o & Ho & Hin). eauto.
  - intros (Hne & o & Hin & Ho). apply in_in_remove; [assumption|].
    apply nodup_In, in_map_iff. eauto.
Qed.

Lemma Oracle_init_nodes_NoDup (passage : Passage) :
  NoDup (nodes_remaining (Oracle_init passage)).
Proof. simpl. apply NoDup_list_remove, NoDup_nodup. Qed.

(** A fresh oracle holds every edge found in some node's outgoing list
    once, and the ID of every layer-1 node but the root's once. *)
Theorem init_sets (passage : Passage) :
  (forall e, In e (edges_remaining (Oracle_init passage)) <->
             exists o, In o (passage_nodes passage) /\ In e (outgoing o))
  /\ (forall k, In k (nodes_remaining (Oracle_init passage)) <->
                k <> ROOT_ID
                /\ exists o, In o (layer1_all passage) /\ ID (node o) = k)
  /\ NoDup (edges_remaining (Oracle_init passage))
  /\ NoDup (nodes_remaining (Oracle_init passage)).
Proof.
  split; [|split; [|split]].
  - intros e. simpl. rewrite nodup_In, in_flat_map. reflexivity.
  - apply Oracle_init_nodes_In.
  - simpl. apply NoDup_nodup.
  - apply Oracle_init_nodes_NoDup.
Qed.

(** X12: The first call on a fresh oracle returns FINISH exactly when no node
    of the passage has an outgoing edge. *)
Theorem first_call_finish_iff_no_edges (cs : bool) (passage : Passage) (st : State) :
  fst (get_action cs (Oracle_init passage) st) = Returns FINISH <->
  (forall o, In o (passage_nodes passage) -> outgoing o = []).
Proof.
  assert (Hret : fst (get_action cs (Oracle_init passage) st) = Returns FINISH <->
                 edges_remaining (Oracle_init passage) = []).
  { split.
    - intros H. apply get_action_returned in H.
      inversion H as
        [ He | | | | | s0 s1 p e Hps Hsec Hbin Ha | | s0 u e Hpw Hu Hin Ha ].
      + assumption.
      + pose proof (binary_action_not_plain p e) as (_ & _ & Hx & _). congruence.
      + destruct u; discriminate.
    - intros He.
      now rewrite (branch_get_action _ _ _ _ (Br_finish cs (Oracle_init passage) st He)). }
  rewrite Hret. simpl. split.
  - intros H o Ho. destruct (outgoing o) as [|e l] eqn:E; [reflexivity|]. exfalso.
    assert (Hin : In e (nodup Edge_eq_dec (flat_map outgoing (passage_nodes passage)))).
    { apply nodup_In, in_flat_map. exists o. split; [assumption|]. rewrite E. now left. }
    rewrite H in Hin. contradiction.
  - intros H.
    destruct (nodup Edge_eq_dec (flat_map outgoing (passage_nodes passage)))
      as [|e l] eqn:E; [reflexivity|]. exfalso.
    assert (Hin : In e (nodup Edge_eq_dec (flat_map outgoing (passage_nodes passage))))
      by (rewrite E; now left).
    apply nodup_In, in_flat_map in Hin. destruct Hin as (o & Ho & He).
    rewrite (H o Ho) in He. contradiction.
Qed.

(** ** Calls in sequence *)

Lemma get_actions_cons (cs : bool) (self : Oracle) (st : State) (rest : list State)
    (actions : list Action) (err : option Raised) (final : Oracle) :
  get_actions cs self (st :: rest) = (actions, err, final) ->
  (exists r, get_action cs self st = (Raises r, final)
             /\ actions = [] /\ err = Some r)
  \/ (exists a self' actions',
        get_action cs self st = (Returns a, self')
        /\ get_actions cs self' rest = (actions', err, final)
        /\ actions = a :: actions').
Proof.
  simpl. destruct (get_action cs self st) as [[a|r] self'].
  - destruct (get_actions cs self' rest) as [[actions' err'] final'] eqn:R.
    intros [= <- <- <-]. right. exists a, self', actions'. repeat split. exact R.
  - intros [= <- <- <-]. left. exists r. repeat split.
Qed.

Lemma created_ids_length (a : Action) :
  List.length (created_ids [a])
  = if discharges a && negb (is_binary a) then 1 else 0.
Proof. now destruct a. Qed.

(** X13: Over any sequence of calls, whatever parser states they are given, the
    edges still remaining and the edge-discharging actions returned add up
    to the edges the sequence started with; a sequence ended by the
    [KeyError] of the IMPLICIT path has removed one more edge, for which no
    action was returned. *)
Theorem calls_account_for_edges (cs : bool) (states : list State) :
  forall (self final : Oracle) (actions : list Action) (err : option Raised),
    get_actions cs self states = (actions, err, final) ->
    List.length (filter discharges actions) + List.length (edges_remaining final)
    + match err with Some (KeyError_node _) => 1 | _ => 0 end
    = List.length (edges_remaining self).
Proof.
  induction states as [|st rest IH]; intros self final actions err H.
  - injection H as <- <- <-. simpl. lia.
  - destruct (get_actions_cons cs self st rest actions err final H) as
        [(r & Hcall & -> & ->) | (a & self' & actions' & Hcall & Hrest & ->)].
    + pose proof (get_action_effect cs self st) as E. rewrite Hcall in E.
      simpl in E. simpl.
      inversion E as [out Hnd Hnk Heq | | | u e Hr Hn Hnin]; subst.
      * destruct r as [? ? ? | k | ?]; try lia. exfalso. now apply (Hnk k).
      * apply set_remove_length in Hr. lia.
    + specialize (IH self' final actions' err Hrest).
      destruct (get_action_step cs self self' st a Hcall) as
          [[Hd ->]
          | [(s0 & s1 & p & e & edges' & _ & _ & _ & -> & Hrm & ->)
            | (s0 & u & e & edges' & nodes' & _ & _ & -> & Hrm & _ & ->)]].
      * simpl. rewrite Hd. exact IH.
      * simpl. rewrite binary_action_discharges. apply set_remove_length in Hrm.
        simpl in *. lia.
      * simpl. rewrite unary_action_discharges. apply set_remove_length in Hrm.
        simpl in *. lia.
Qed.

Lemma get_actions_nodes_perm (cs : bool) (states : list State) :
  forall (self final : Oracle) (actions : list Action) (err : option Raised),
    get_actions cs self states = (actions, err, final) ->
    Permutation (created_ids actions ++ nodes_remaining final) (nodes_remaining self).
Proof.
  induction states as [|st rest IH]; intros self final actions err H.
  - injection H as <- <- <-. reflexivity.
  - destruct (get_actions_cons cs self st rest actions err final H) as
        [(r & Hcall & -> & ->) | (a & self' & actions' & Hcall & Hrest & ->)].
    + pose proof (get_action_effect cs self st) as E. rewrite Hcall in E.
      simpl in E. simpl.
      inversion E as [out Hnd Hnk Heq | | | u e Hr Hn Hnin]; subst.
      * reflexivity.
      * now rewrite Hn.
    + specialize (IH self' final actions' err Hrest).
      rewrite created_ids_cons, <- app_assoc, IH.
      destruct (get_action_step cs self self' st a Hcall) as
          [[Hd ->]
          | [(s0 & s1 & p & e & edges' & _ & _ & _ & -> & _ & ->)
            | (s0 & u & e & edges' & nodes' & _ & _ & -> & _ & Hnm & ->)]].
      * rewrite created_ids_plain; [reflexivity|].
        intros u e ->. now rewrite unary_action_discharges in Hd.
      * rewrite created_ids_plain; [reflexivity|].
        intros u e' Ha. unfold binary_action in Ha.
        destruct p, (remote e), u; discriminate.
      * apply set_remove_perm in Hnm. cbn [nodes_remaining]. rewrite Hnm.
        now destruct u.
Qed.

(** X14: Over any sequence of calls the IDs of the nodes created by the NODE and
    IMPLICIT actions returned, together with the IDs still in
    [nodes_remaining], are the IDs the sequence started with. *)
Theorem calls_account_for_nodes (cs : bool) (states : list State)
    (self final : Oracle) (actions : list Action) (err : option Raised) :
  get_actions cs self states = (actions, err, final) ->
  Permutation (created_ids actions ++ nodes_remaining final) (nodes_remaining self)
  /\ List.length (created_ids actions) + List.length (nodes_remaining final)
     = List.length (nodes_remaining self).
Proof.
  intros H. pose proof (get_actions_nodes_perm cs states _ _ _ _ H) as P.
  split; [exact P|]. apply Permutation_length in P. now rewrite length_app in P.
Qed.

Lemma NoDup_app_not_both {A : Type} (l1 l2 : list A) (x : A) :
  NoDup (l1 ++ l2) -> In x l1 -> ~ In x l2.
Proof.
  induction l1 as [|y l1 IH]; simpl; intros Hnd Hin Hin2; [contradiction|].
  inversion Hnd as [|? ? Hy Hrest]; subst. destruct Hin as [-> | Hin].
  - apply Hy. apply in_or_app. now right.
  - now apply (IH Hrest Hin).
Qed.

(** X15: From a fresh oracle, whatever parser states the calls are given, no
    node is created twice, the root is never created, and every node
    created is a layer-1 node of the passage. *)
Theorem calls_create_each_node_once (cs : bool) (passage : Passage)
    (states : list State) (actions : list Action) (err : option Raised)
    (final : Oracle) :
  get_actions cs (Oracle_init passage) states = (actions, err, final) ->
  NoDup (created_ids actions)
  /\ ~ In ROOT_ID (created_ids actions)
  /\ (forall k, In k (created_ids actions) ->
        exists o, In o (layer1_all passage) /\ ID (node o) = k)
  /\ (forall k, In k (created_ids actions) -> ~ In k (nodes_remaining final)).
Proof.
  intros H.
  pose proof (get_actions_nodes_perm cs states _ _ _ _ H) as P.
  pose proof (Oracle_init_nodes_In passage) as Hnodes.
  pose proof (Oracle_init_nodes_NoDup passage) as Hnd.
  apply (Permutation_NoDup (Permutation_sym P)) in Hnd.
  assert (Hin : forall k, In k (created_ids actions) ->
                  In k (nodes_remaining (Oracle_init passage))).
  { intros k Hk. apply (Permutation_in k P). apply in_or_app. now left. }
  split; [now apply NoDup_app_remove_r in Hnd|]. split; [|split].
  - intros Hk. apply Hin, Hnodes in Hk. now destruct Hk.
  - intros k Hk. now apply Hin, Hnodes in Hk.
  - intros k Hk. now apply (NoDup_app_not_both _ _ k Hnd).
Qed.

Lemma get_actions_no_edges (cs : bool) (states : list State) (self : Oracle) :
  edges_remaining self = [] ->
  get_actions cs self states = (repeat FINISH (List.length states), None, self).
Proof.
  intros He. induction states as [|st rest IH]; simpl; [reflexivity|].
  rewrite (branch_get_action _ _ _ _ (Br_finish cs self st He)). now rewrite IH.
Qed.

(** X16: Once FINISH has been returned every later call returns FINISH as well:
    in any sequence of calls the actions after the first FINISH are all
    FINISH, no call raises, and no edge remains at the end. *)
Theorem finish_is_final (cs : bool) (states : list State) :
  forall (self final : Oracle) (actions pre post : list Action) (err : option Raised),
    get_actions cs self states = (actions, err, final) ->
    actions = pre ++ FINISH :: post ->
    Forall (fun a => a = FINISH) post /\ err = None /\ edges_remaining final = [].
Proof.
  induction states as [|st rest IH]; intros self final actions pre post err H Ha.
  - injection H as <- <- <-. destruct pre; discriminate.
  - destruct (get_actions_cons cs self st rest actions err final H) as
        [(r & Hcall & -> & ->) | (a & self' & actions' & Hcall & Hrest & ->)].
    + destruct pre; discriminate.
    + destruct pre as [|b pre'].
      * injection Ha as -> ->.
        assert (He : edges_remaining self = []).
        { assert (R : Returned cs self st FINISH)
            by (apply get_action_returned; now rewrite Hcall).
          inversion R as
            [ He | | | | | s0 s1 p e Hps Hsec Hbin Hx | | s0 u e Hpw Hu Hin Hx ].
          - assumption.
          - pose proof (binary_action_not_plain p e) as (_ & _ & Hy & _). congruence.
          - destruct u; discriminate. }
        rewrite (branch_get_action _ _ _ _ (Br_finish cs self st He)) in Hcall.
        injection Hcall as <-.
        rewrite (get_actions_no_edges cs rest self He) in Hrest.
        injection Hrest as <- <- <-. repeat split; auto.
        apply Forall_forall. intros a Hin. now apply repeat_spec in Hin.
      * injection Ha as -> ->. now apply (IH self' final _ pre' post err Hrest).
Qed.

(** * Properties of the text utilities *)

(** ** [tex_escape] *)

Lemma string_app_assoc (a b c : string) : ((a ++ b) ++ c = a ++ (b ++ c))%string.
Proof. induction a as [|x a IH]; simpl; [reflexivity | now rewrite IH]. Qed.

Lemma string_app_length (a b : string) :
  String.length (a ++ b) = String.length a + String.length b.
Proof. induction a as [|x a IH]; simpl; [reflexivity | now rewrite IH]. Qed.

Lemma table_get_In (table : list (ascii * string)) (c : ascii) (v : string) :
  table_get table c = Some v -> In (c, v) table.
Proof.
  induction table as [|[k w] rest IH]; simpl; [discriminate|].
  destruct (Ascii.eqb_spec c k) as [->|Hne].
  - intros [= ->]. now left.
  - intros H. right. now apply IH.
Qed.

Lemma escape_char_cases (c : ascii) :
  (table_get TEX_ESCAPE_TABLE c = None /\ escape_char c = String c EmptyString)
  \/ (exists v, In (c, v) TEX_ESCAPE_TABLE /\ escape_char c = v).
Proof.
  unfold escape_char. destruct (table_get TEX_ESCAPE_TABLE c) as [v|] eqn:E.
  - right. exists v. split; [now apply table_get_In | reflexivity].
  - left. now split.
Qed.

Ltac table_entries H :=
  simpl in H;
  repeat (destruct H as [H | H]; [inversion H; subst; clear H |]);
  try contradiction.

(** No replacement is the beginning of another one's output. *)
Lemma escape_char_prefix_free (c1 c2 : ascii) (r1 r2 : string) :
  (escape_char c1 ++ r1 = escape_char c2 ++ r2)%string -> c1 = c2 /\ r1 = r2.
Proof.
  destruct (escape_char_cases c1) as [[N1 ->] | (v1 & H1 & ->)];
    destruct (escape_char_cases c2) as [[N2 ->] | (v2 & H2 & ->)].
  - simpl. intros [= -> ->]. now split.
  - intros Heq. exfalso. table_entries H2; simpl in Heq;
      injection Heq as -> _; vm_compute in N1; discriminate.
  - intros Heq. exfalso. table_entries H1; simpl in Heq;
      injection Heq as <- _; vm_compute in N2; discriminate.
  - intros Heq. table_entries H1; table_entries H2; simpl in Heq;
      first [ discriminate Heq | injection Heq as ->; now split ].
Qed.

Lemma escape_char_nonempty (c : ascii) : escape_char c <> EmptyString.
Proof.
  destruct (escape_char_cases c) as [[_ ->] | (v & H & ->)]; [discriminate|].
  table_entries H; discriminate.
Qed.

(** Escaping goes character by character. *)
Lemma tex_escape_app (s1 s2 : string) :
  tex_escape (s1 ++ s2) = (tex_escape s1 ++ tex_escape s2)%string.
Proof.
  induction s1 as [|c s1 IH]; simpl; [reflexivity|].
  now rewrite IH, string_app_assoc.
Qed.

(** X18: Different messages have different escaped forms. *)
Theorem tex_escape_injective (s1 s2 : string) :
  tex_escape s1 = tex_escape s2 -> s1 = s2.
Proof.
  revert s2. induction s1 as [|c1 s1 IH]; intros [|c2 s2]; simpl; intros H.
  - reflexivity.
  - exfalso. destruct (escape_char c2) eqn:E; [now apply (escape_char_nonempty c2)|].
    discriminate.
  - exfalso. destruct (escape_char c1) eqn:E; [now apply (escape_char_nonempty c1)|].
    discriminate.
  - apply escape_char_prefix_free in H. destruct H as [-> H]. f_equal. now apply IH.
Qed.

Lemma escape_char_length (c : ascii) :
  String.length (escape_char c) = 1 /\ is_tex_special c = false
  \/ 2 <= String.length (escape_char c) /\ is_tex_special c = true.
Proof.
  unfold is_tex_special.
  destruct (escape_char_cases c) as [[N ->] | (v & H & ->)].
  - left. now rewrite N.
  - right. table_entries H; split; try reflexivity; simpl; lia.
Qed.

Lemma tex_escape_length (s : string) :
  String.length s <= String.length (tex_escape s)
  /\ (has_tex_special s = true -> String.length s < String.length (tex_escape s)).
Proof.
  induction s as [|c s [IH1 IH2]]; simpl; [split; [lia | discriminate]|].
  rewrite string_app_length.
  destruct (escape_char_length c) as [[Hl Hs] | [Hl Hs]]; rewrite Hs; simpl.
  - split; [lia|]. intros H. specialize (IH2 H). lia.
  - split; [lia|]. intros _. lia.
Qed.

(** X19: A message is left as it is exactly when it holds none of the twelve
    characters of the table; escaping never makes a message shorter. *)
Theorem tex_escape_fixed_iff (s : string) :
  (tex_escape s = s <-> has_tex_special s = false)
  /\ String.length s <= String.length (tex_escape s).
Proof.
  split; [split|apply tex_escape_length].
  - intros H. destruct (has_tex_special s) eqn:E; [|reflexivity].
    destruct (tex_escape_length s) as [_ Hlt]. specialize (Hlt E).
    rewrite H in Hlt. lia.
  - induction s as [|c s IH]; simpl; [reflexivity|].
    intros H. apply orb_false_iff in H. destruct H as [Hc Hs].
    rewrite (IH Hs). unfold escape_char. unfold is_tex_special in Hc.
    now destruct (table_get TEX_ESCAPE_TABLE c).
Qed.

(** ** [break2paragraphs] *)

Section GroupBy.

Context {A : Type} (key : A -> Z).

Lemma groupby_head (x : A) (rest : list A) :
  exists g gs, groupby key (x :: rest) = (x :: g) :: gs.
Proof.
  simpl. destruct (groupby key rest) as [|[|y g] gs]; eauto.
  destruct (key x =? key y)%Z; eauto.
Qed.

Lemma groupby_concat (l : list A) : List.concat (groupby key l) = l.
Proof.
  induction l as [|x rest IH]; simpl; [reflexivity|].
  destruct (groupby key rest) as [|[|y g] gs] eqn:E.
  - simpl in *. now rewrite <- IH.
  - destruct rest as [|z rest']; [reflexivity|].
    destruct (groupby_head z rest') as (g' & gs' & Hg). congruence.
  - destruct (key x =? key y)%Z; simpl in *; now rewrite IH.
Qed.

Lemma groupby_runs (l : list A) : runs key (groupby key l).
Proof.
  induction l as [|x rest IH]; simpl; [exact I|].
  destruct (groupby key rest) as [|[|y g] gs] eqn:E.
  - simpl. repeat split; [discriminate|]. intros a b [<- | []] [<- | []]. reflexivity.
  - destruct rest as [|z rest']; [discriminate|].
    destruct (groupby_head z rest') as (g' & gs' & Hg). congruence.
  - destruct IH as (_ & Hsame & Hnext & Hrest).
    destruct (Z.eqb_spec (key x) (key y)) as [Heq | Hne].
    + split; [discriminate|]. split; [|split; [|assumption]].
      * intros a b [<- | Ha] [<- | Hb]; try reflexivity.
        -- rewrite Heq. apply Hsame; [now left | assumption].
        -- rewrite Heq. apply Hsame; [assumption | now left].
        -- now apply Hsame.
      * destruct gs as [|g' gs']; [exact I|].
        intros a b [<- | Ha] Hb.
        -- rewrite Heq. apply Hnext; [now left | assumption].
        -- now apply Hnext.
    + split; [discriminate|]. split; [|split].
      * intros a b [<- | []] [<- | []]. reflexivity.
      * intros a b [<- | []] Hb. rewrite (Hsame b y Hb (or_introl eq_refl)). exact Hne.
      * split; [discriminate|]. split; [assumption|]. split; assumption.
Qed.

End GroupBy.

(** X20: With [return_terminals=True] the terminals are cut into paragraphs
    without loss: the groups, put end to end, are the terminals in order;
    no group is empty, all terminals of a group have one paragraph number,
    and a group and the next one have different paragraph numbers.  An
    empty passage gives the empty list. *)
Theorem break2paragraphs_groups (terminals : list Terminal) :
  exists groups,
    break2paragraphs terminals true = Groups groups
    /\ List.concat groups = terminals
    /\ runs paragraph groups
    /\ (terminals = [] -> groups = []).
Proof.
  exists (groupby paragraph terminals). split; [reflexivity|].
  split; [apply groupby_concat|]. split; [apply groupby_runs|].
  intros ->. reflexivity.
Qed.

Lemma rev_head_last {A : Type} (l : list A) (x d : A) (r : list A) :
  rev l = x :: r -> List.last l d = x.
Proof.
  intros H. apply (f_equal (@rev A)) in H. rewrite rev_involutive in H. subst l.
  simpl. apply last_last.
Qed.

Lemma last_cons_default {A : Type} (r : list A) :
  forall y d : A, List.last (y :: r) d = List.last r y.
Proof.
  induction r as [|z r IH]; intros y d; [reflexivity|].
  change (List.last (y :: z :: r) d) with (List.last (z :: r) d).
  now rewrite (IH z d), (IH z y).
Qed.

Lemma closing_positions_cons_same (t y : Terminal) (g : list Terminal)
    (gs : list (list Terminal)) :
  closing_positions ((t :: y :: g) :: gs) = closing_positions ((y :: g) :: gs).
Proof.
  unfold closing_positions. simpl. destruct (rev g ++ [y]) as [|z r] eqn:E.
  - destruct (rev g); discriminate.
  - reflexivity.
Qed.

Lemma paragraph_ends_from (rest : list Terminal) :
  forall (t : Terminal) (p : Z),
    (2 <= p)%Z -> position t = (p - 1)%Z ->
    layer0_numbered p (Some (paragraph t)) rest ->
    paragraph_starts rest ++ [position (List.last rest t)]
    = closing_positions (groupby paragraph (t :: rest)).
Proof.
  induction rest as [|y r IH]; intros t p Hp Ht Hnum.
  - reflexivity.
  - destruct Hnum as (Hy & Hpp & Hrest).
    specialize (IH y (p + 1)%Z ltac:(lia) ltac:(lia) Hrest).
    destruct (groupby_head paragraph y r) as (g & gs & Hg).
    change (groupby paragraph (t :: y :: r))
      with (match groupby paragraph (y :: r) with
            | (y' :: g') :: gs' =>
                if (paragraph t =? paragraph y')%Z then (t :: y' :: g') :: gs'
                else [t] :: (y' :: g') :: gs'
            | _ => [[t]]
            end).
    rewrite Hg in *.
    rewrite (last_cons_default r y t). unfold paragraph_starts in *. cbn [filter].
    assert (H1 : (1 <? position y)%Z = true) by (apply Z.ltb_lt; lia).
    rewrite H1. cbn [andb].
    destruct (Z.eqb_spec (paragraph t) (paragraph y)) as [Heq | Hne].
    + assert (Hq : (para_pos y =? 1)%Z = false).
      { apply Z.eqb_neq. intros H. apply Hpp in H. apply H. now rewrite Heq. }
      rewrite Hq, closing_positions_cons_same. exact IH.
    + assert (Hq : (para_pos y =? 1)%Z = true).
      { apply Z.eqb_eq, Hpp. intros [= H]. now apply Hne. }
      rewrite Hq. cbn [map app].
      change (closing_positions ([t] :: (y :: g) :: gs))
        with (position t :: closing_positions ((y :: g) :: gs)).
      rewrite <- IH. f_equal. lia.
Qed.

(** X22: On a passage whose terminals are numbered from 1 and whose [para_pos]
    is 1 exactly on the first terminal of each paragraph, the positions
    returned with [return_terminals=False] are the positions of the closing
    terminals of the groups returned with [return_terminals=True]. *)
Theorem break2paragraphs_ends_close_groups (terminals : list Terminal) :
  terminals <> [] ->
  layer0_numbered 1 None terminals ->
  break2paragraphs terminals false
  = Ends (closing_positions (groupby paragraph terminals)).
Proof.
  intros Hne Hnum. destruct terminals as [|t rest]; [contradiction|].
  destruct Hnum as (Ht & _ & Hrest).
  unfold break2paragraphs.
  destruct (rev (t :: rest)) as [|x r] eqn:E.
  { apply rev_nil_inv in E. discriminate. }
  rewrite <- (rev_head_last (t :: rest) x t r E).
  fold (paragraph_starts (t :: rest)).
  assert (Hfirst : paragraph_starts (t :: rest) = paragraph_starts rest).
  { unfold paragraph_starts. cbn [filter]. rewrite Ht. reflexivity. }
  rewrite Hfirst. f_equal.
  rewrite (last_cons_default rest t t). apply (paragraph_ends_from rest t 2%Z); [lia | lia | exact Hrest].
Qed.

(** ** The site tag tables *)

Lemma dict_get_In {K V : Type} (eqb : K -> K -> bool) (d : list (K * V)) (k : K) (v : V) :
  dict_get eqb d k = Some v -> exists k', In (k', v) d /\ eqb k k' = true.
Proof.
  induction d as [|[k1 v1] rest IH]; simpl; [discriminate|].
  destruct (dict_get eqb rest k) as [later|].
  - intros [= ->]. destruct (IH eq_refl) as (k' & Hin & Hk). eauto.
  - destruct (eqb k k1) eqn:E; [|discriminate]. intros [= ->]. eauto.
Qed.

Lemma dict_get_key {K V : Type} (eqb : K -> K -> bool) (d : list (K * V)) (k : K) (v : V) :
  eqb k k = true -> In (k, v) d -> exists v', dict_get eqb d k = Some v'.
Proof.
  intros Hrefl. induction d as [|[k1 v1] rest IH]; simpl; [contradiction|].
  intros [[= -> ->] | Hin].
  - destruct (dict_get eqb rest k); [eauto|]. rewrite Hrefl. eauto.
  - destruct (IH Hin) as (v' & ->). eauto.
Qed.

Lemma edge_conversion_read_back {tag : Type} (layer1 : EdgeTags.t tag) (t : tag) (s : string) :
  In (t, s) (EdgeConversion layer1) ->
  dict_get String.eqb (TagConversion layer1) s = Some t.
Proof.
  intros H. simpl in H.
  repeat (destruct H as [H | H]; [injection H as <- <-; reflexivity |]).
  contradiction.
Qed.

Lemma tag_conversion_values {tag : Type} (layer1 : EdgeTags.t tag) (s : string) (t : tag) :
  In (s, t) (TagConversion layer1) -> exists s', In (t, s') (EdgeConversion layer1).
Proof.
  intros H. simpl in H.
  repeat (destruct H as [H | H];
          [injection H as <- <-; eexists; simpl; tauto |]).
  contradiction.
Qed.

(** X23: Whatever the values of the edge tags are: a tag that [EdgeConversion]
    can write is read back by [TagConversion] from what was written; and a
    tag read by [TagConversion] can be written by [EdgeConversion] without
    a [KeyError], and reading what was written gives the same tag again. *)
Theorem tag_conversion_round_trip {tag : Type} (tag_eqb : tag -> tag -> bool)
    (layer1 : EdgeTags.t tag) :
  (forall x y, tag_eqb x y = true <-> x = y) ->
  (forall t s, dict_get tag_eqb (EdgeConversion layer1) t = Some s ->
               dict_get String.eqb (TagConversion layer1) s = Some t)
  /\ (forall s t, dict_get String.eqb (TagConversion layer1) s = Some t ->
         exists s', dict_get tag_eqb (EdgeConversion layer1) t = Some s'
                    /\ dict_get String.eqb (TagConversion layer1) s' = Some t).
Proof.
  intros Heq.
  assert (Hback : forall t s, dict_get tag_eqb (EdgeConversion layer1) t = Some s ->
                    dict_get String.eqb (TagConversion layer1) s = Some t).
  { intros t s H. apply dict_get_In in H. destruct H as (t' & Hin & Ht).
    apply Heq in Ht. subst t'. now apply edge_conversion_read_back. }
  split; [exact Hback|].
  intros s t H. apply dict_get_In in H. destruct H as (s0 & Hin & Hs).
  apply String.eqb_eq in Hs. subst s0.
  destruct (tag_conversion_values layer1 s t Hin) as (s1 & Hin1).
  destruct (dict_get_key tag_eqb (EdgeConversion layer1) t s1) as (s' & Hs');
    [now apply Heq | assumption |].
  exists s'. split; [assumption | now apply Hback].
Qed.

(** * The further properties at concrete inputs *)

Lemma shift_needs_buffer_witness :
  get_action false Sample.root_edge_left Sample.scene_ahead_state
  = (Returns SHIFT, Sample.root_edge_left)
  /\ buffer Sample.scene_ahead_state <> []
  /\ Sample.root_edge_left = Sample.root_edge_left.
Proof.
  split; [reflexivity|].
  apply (shift_needs_buffer false Sample.root_edge_left Sample.root_edge_left
           Sample.scene_ahead_state).
  reflexivity.
Defined.

Lemma binary_action_sound_witness :
  get_action false Sample.rooted_oracle Sample.linked_state
  = (Returns (RIGHT_EDGE "H"), Sample.rooted_after)
  /\ is_binary (RIGHT_EDGE "H") = true
  /\ exists s0 s1 p e,
       stack_top Sample.linked_state = Some s0
       /\ stack_second Sample.linked_state = Some s1
       /\ In e (edges_remaining Sample.rooted_oracle)
       /\ match p with
          | RIGHT => In e (incoming (orig_node s0)) /\ ID (parent e) = node_id s1
                     /\ RIGHT_EDGE "H"
                        = (if remote e then RIGHT_REMOTE (tag e) else RIGHT_EDGE (tag e))
          | LEFT => In e (outgoing (orig_node s0)) /\ ID (child e) = node_id s1
                    /\ RIGHT_EDGE "H"
                       = (if remote e then LEFT_REMOTE (tag e) else LEFT_EDGE (tag e))
          end
       /\ set_remove Edge_eq_dec e (edges_remaining Sample.rooted_oracle)
          = Some (edges_remaining Sample.rooted_after)
       /\ nodes_remaining Sample.rooted_after = nodes_remaining Sample.rooted_oracle.
Proof.
  split; [reflexivity|]. split; [reflexivity|].
  apply (binary_action_sound false Sample.rooted_oracle Sample.rooted_after
           Sample.linked_state (RIGHT_EDGE "H")); reflexivity.
Defined.

Lemma node_action_sound_witness :
  get_action false Sample.linked_oracle Sample.linked_state
  = (Returns (NODE "LA" Sample.n_link1), Sample.linked_after)
  /\ exists s0 e,
       stack_top Sample.linked_state = Some s0
       /\ In e (edges_remaining Sample.linked_oracle)
       /\ In e (incoming (orig_node s0))
       /\ parent e = Sample.n_link1 /\ tag e = "LA"%string /\ remote e = false
       /\ In (ID Sample.n_link1) (nodes_remaining Sample.linked_oracle)
       /\ set_remove Edge_eq_dec e (edges_remaining Sample.linked_oracle)
          = Some (edges_remaining Sample.linked_after)
       /\ set_remove string_dec (ID Sample.n_link1)
            (nodes_remaining Sample.linked_oracle)
          = Some (nodes_remaining Sample.linked_after).
Proof.
  split; [reflexivity|].
  apply (node_action_sound false Sample.linked_oracle Sample.linked_after
           Sample.linked_state "LA" Sample.n_link1).
  reflexivity.
Defined.

Lemma implicit_action_sound_witness :
  get_action false Sample.remote_call_oracle Sample.remote_call_state
  = (Returns (IMPLICIT "A" Sample.n_impl), Sample.remote_call_after)
  /\ exists s0 e,
       stack_top Sample.remote_call_state = Some s0
       /\ In e (edges_remaining Sample.remote_call_oracle)
       /\ In e (outgoing (orig_node s0))
       /\ child e = Sample.n_impl /\ tag e = "A"%string
       /\ implicit Sample.n_impl = true
       /\ In (ID Sample.n_impl) (nodes_remaining Sample.remote_call_oracle)
       /\ set_remove Edge_eq_dec e (edges_remaining Sample.remote_call_oracle)
          = Some (edges_remaining Sample.remote_call_after)
       /\ set_remove string_dec (ID Sample.n_impl)
            (nodes_remaining Sample.remote_call_oracle)
          = Some (nodes_remaining Sample.remote_call_after).
Proof.
  split; [reflexivity|].
  apply (implicit_action_sound false Sample.remote_call_oracle Sample.remote_call_after
           Sample.remote_call_state "A" Sample.n_impl).
  reflexivity.
Defined.

Lemma binary_and_swap_need_depth_witness :
  fst (get_action true Sample.root_edge_left Sample.buried_root_state)
  = Returns (SWAP (Some 1))
  /\ (is_binary (SWAP (Some 1)) = true ->
      2 <= List.length (stack Sample.buried_root_state))
  /\ (forall d, SWAP (Some 1) = SWAP d ->
        3 <= List.length (stack Sample.buried_root_state)
        /\ forall D, d = Some D ->
             1 <= D /\ D + 2 <= List.length (stack Sample.buried_root_state)).
Proof.
  split; [reflexivity|].
  apply (binary_and_swap_need_depth true Sample.root_edge_left
           Sample.buried_root_state (SWAP (Some 1))).
  reflexivity.
Defined.

Lemma nodes_remaining_frame_witness :
  get_action false Sample.linked_oracle Sample.linked_state
  = (Returns (NODE "LA" Sample.n_link1), Sample.linked_after)
  /\ (forall t n, NODE "LA" Sample.n_link1 = NODE t n
                  \/ NODE "LA" Sample.n_link1 = IMPLICIT t n ->
        In (ID n) (nodes_remaining Sample.linked_oracle)
        /\ set_remove string_dec (ID n) (nodes_remaining Sample.linked_oracle)
           = Some (nodes_remaining Sample.linked_after)
        /\ List.length (nodes_remaining Sample.linked_oracle)
           = S (List.length (nodes_remaining Sample.linked_after))
        /\ (NoDup (nodes_remaining Sample.linked_oracle) ->
            ~ In (ID n) (nodes_remaining Sample.linked_after)))
  /\ ((forall t n, NODE "LA" Sample.n_link1 <> NODE t n
                   /\ NODE "LA" Sample.n_link1 <> IMPLICIT t n) ->
      nodes_remaining Sample.linked_after = nodes_remaining Sample.linked_oracle).
Proof.
  split; [reflexivity|].
  apply (nodes_remaining_frame false Sample.linked_oracle Sample.linked_after
           Sample.linked_state (NODE "LA" Sample.n_link1)).
  reflexivity.
Defined.

Lemma returns_action_when_buffer_nonempty_witness :
  buffer Sample.scene_ahead_state <> []
  /\ (forall e, In e (edges_remaining Sample.root_edge_left) ->
                implicit (child e) = true ->
                In (ID (child e)) (nodes_remaining Sample.root_edge_left))
  /\ exists a, fst (get_action false Sample.root_edge_left Sample.scene_ahead_state)
               = Returns a.
Proof.
  assert (Hb : buffer Sample.scene_ahead_state <> []) by discriminate.
  assert (Hi : forall e, In e (edges_remaining Sample.root_edge_left) ->
                 implicit (child e) = true ->
                 In (ID (child e)) (nodes_remaining Sample.root_edge_left)).
  { intros e [<- | []] H. discriminate H. }
  split; [exact Hb|]. split; [exact Hi|].
  exact (returns_action_when_buffer_nonempty false Sample.root_edge_left
           Sample.scene_ahead_state Hb Hi).
Defined.

Lemma binary_edge_preferred_witness :
  stack_top Sample.linked_state
  = Some (state_node_of (Sample.orig_of Sample.linked_edges Sample.n_scene))
  /\ stack_second Sample.linked_state
     = Some (state_node_of (Sample.orig_of Sample.linked_edges Sample.n_root))
  /\ In Sample.e_root_scene (edges_remaining Sample.rooted_oracle)
  /\ exists p e',
       fst (get_action false Sample.rooted_oracle Sample.linked_state)
       = Returns (binary_action p e')
       /\ In e' (edges_remaining Sample.rooted_oracle)
       /\ (In Sample.e_root_scene
             (incoming (orig_node (state_node_of
                                     (Sample.orig_of Sample.linked_edges Sample.n_scene))))
           /\ ID (parent Sample.e_root_scene)
              = node_id (state_node_of
                           (Sample.orig_of Sample.linked_edges Sample.n_root)) ->
           p = RIGHT).
Proof.
  split; [reflexivity|]. split; [reflexivity|]. split; [now left|].
  apply (binary_edge_preferred false Sample.rooted_oracle Sample.linked_state
           (state_node_of (Sample.orig_of Sample.linked_edges Sample.n_scene))
           (state_node_of (Sample.orig_of Sample.linked_edges Sample.n_root))
           Sample.e_root_scene).
  - reflexivity.
  - reflexivity.
  - reflexivity.
  - now left.
  - left. split; [vm_compute; now left | reflexivity].
Defined.

Lemma calls_account_for_edges_witness :
  get_actions false Sample.linked_oracle
    [Sample.linked_state; Sample.linked_state; Sample.linked_state]
  = ([NODE "LA" Sample.n_link1; NODE "LR" Sample.n_link2; FINISH], None,
     Sample.no_edges_left)
  /\ List.length (filter discharges
                    [NODE "LA" Sample.n_link1; NODE "LR" Sample.n_link2; FINISH])
     + List.length (edges_remaining Sample.no_edges_left)
     + 0
     = List.length (edges_remaining Sample.linked_oracle).
Proof.
  split; [reflexivity|].
  apply (calls_account_for_edges false
           [Sample.linked_state; Sample.linked_state; Sample.linked_state]
           Sample.linked_oracle Sample.no_edges_left
           [NODE "LA" Sample.n_link1; NODE "LR" Sample.n_link2; FINISH] None).
  reflexivity.
Defined.

Lemma calls_account_for_nodes_witness :
  get_actions false Sample.linked_oracle
    [Sample.linked_state; Sample.linked_state; Sample.linked_state]
  = ([NODE "LA" Sample.n_link1; NODE "LR" Sample.n_link2; FINISH], None,
     Sample.no_edges_left)
  /\ Permutation
       (created_ids [NODE "LA" Sample.n_link1; NODE "LR" Sample.n_link2; FINISH]
        ++ nodes_remaining Sample.no_edges_left)
       (nodes_remaining Sample.linked_oracle)
  /\ List.length (created_ids
                    [NODE "LA" Sample.n_link1; NODE "LR" Sample.n_link2; FINISH])
     + List.length (nodes_remaining Sample.no_edges_left)
     = List.length (nodes_remaining Sample.linked_oracle).
Proof.
  split; [reflexivity|].
  apply (calls_account_for_nodes false
           [Sample.linked_state; Sample.linked_state; Sample.linked_state]
           Sample.linked_oracle Sample.no_edges_left
           [NODE "LA" Sample.n_link1; NODE "LR" Sample.n_link2; FINISH] None).
  reflexivity.
Defined.

Lemma calls_create_each_node_once_witness :
  exists actions err final,
    get_actions false (Oracle_init Sample.one_scene)
      [state (fresh Sample.one_scene);
       state (snd (Sample.at_call InPlaceOfTop Sample.one_scene 1));
       state (snd (Sample.at_call InPlaceOfTop Sample.one_scene 2));
       state (snd (Sample.at_call InPlaceOfTop Sample.one_scene 3))]
    = (actions, err, final)
    /\ created_ids actions = ["1.2"; "1.3"]%string
    /\ NoDup (created_ids actions)
    /\ ~ In ROOT_ID (created_ids actions)
    /\ (forall k, In k (created_ids actions) ->
          exists o, In o (layer1_all Sample.one_scene) /\ ID (node o) = k)
    /\ (forall k, In k (created_ids actions) -> ~ In k (nodes_remaining final)).
Proof.
  destruct (get_actions false (Oracle_init Sample.one_scene)
              [state (fresh Sample.one_scene);
               state (snd (Sample.at_call InPlaceOfTop Sample.one_scene 1));
               state (snd (Sample.at_call InPlaceOfTop Sample.one_scene 2));
               state (snd (Sample.at_call InPlaceOfTop Sample.one_scene 3))])
    as [[actions err] final] eqn:R.
  exists actions, err, final. split; [reflexivity|]. split.
  - vm_compute in R. injection R as <- _ _. reflexivity.
  - exact (calls_create_each_node_once false Sample.one_scene _ actions err final R).
Defined.

Lemma finish_is_final_witness :
  get_actions false Sample.linked_oracle
    [Sample.linked_state; Sample.linked_state; Sample.linked_state; Sample.linked_state]
  = ([NODE "LA" Sample.n_link1; NODE "LR" Sample.n_link2] ++ FINISH :: [FINISH],
     None, Sample.no_edges_left)
  /\ Forall (fun a => a = FINISH) [FINISH]
  /\ @None Raised = None
  /\ edges_remaining Sample.no_edges_left = [].
Proof.
  split; [reflexivity|].
  apply (finish_is_final false
           [Sample.linked_state; Sample.linked_state; Sample.linked_state;
            Sample.linked_state]
           Sample.linked_oracle Sample.no_edges_left
           ([NODE "LA" Sample.n_link1; NODE "LR" Sample.n_link2] ++ FINISH :: [FINISH])
           [NODE "LA" Sample.n_link1; NODE "LR" Sample.n_link2] [FINISH] None);
    reflexivity.
Defined.

Lemma tex_escape_injective_witness :
  tex_escape "50% of a_b" = tex_escape "50% of a_b"
  /\ "50% of a_b"%string = "50% of a_b"%string.
Proof.
  split; [reflexivity|].
  apply (tex_escape_injective "50% of a_b" "50% of a_b"). reflexivity.
Defined.

Lemma break2paragraphs_ends_close_groups_witness :
  TextSample.two_paragraphs <> []
  /\ layer0_numbered 1 None TextSample.two_paragraphs
  /\ break2paragraphs TextSample.two_paragraphs false
     = Ends (closing_positions (groupby paragraph TextSample.two_paragraphs)).
Proof.
  assert (Hne : TextSample.two_paragraphs <> []) by discriminate.
  assert (Hnum : layer0_numbered 1 None TextSample.two_paragraphs).
  { simpl. repeat split; intros; try discriminate; try congruence. }
  split; [exact Hne|]. split; [exact Hnum|].
  exact (break2paragraphs_ends_close_groups TextSample.two_paragraphs Hne Hnum).
Defined.

Lemma tag_conversion_round_trip_witness :
  (forall x y, String.eqb x y = true <-> x = y)
  /\ (forall t s,
        dict_get String.eqb (EdgeConversion TextSample.letter_tags) t = Some s ->
        dict_get String.eqb (TagConversion TextSample.letter_tags) s = Some t)
  /\ (forall s t,
        dict_get String.eqb (TagConversion TextSample.letter_tags) s = Some t ->
        exists s',
          dict_get String.eqb (EdgeConversion TextSample.letter_tags) t = Some s'
          /\ dict_get String.eqb (TagConversion TextSample.letter_tags) s' = Some t).
Proof.
  split; [exact String.eqb_eq|].
  exact (tag_conversion_round_trip String.eqb TextSample.letter_tags String.eqb_eq).
Defined.
